(** * NINJA-IDE editor widget: text logic of [ninja_ide/gui/editor/editor.py]

    A shallow embedding of the text-manipulating methods of [NEditor] and of
    [ExtraSelectionManager]:

    - [_get_find_index_results]  (find / occurrence engine),
    - [__smart_backspace], [__manage_key_home],
    - [comment_or_uncomment],
    - [ExtraSelectionManager.add], [remove], [update] and [NEditor.link].

    Python [str] values are lists of characters; a character is a code point
    below 256 (Rocq's [ascii]), classified as Python classifies that code
    point.  Offsets, columns and lengths are [nat]; the two counters of
    [comment_or_uncomment] that start at [sys.maxsize] or may drop below zero
    are [Z]. *)

From Stdlib Require Import Ascii String List ZArith NArith Arith Bool Lia.
From Stdlib Require Import Permutation Sorted.
Import ListNotations.

Local Open Scope list_scope.
Local Open Scope nat_scope.

(** ** Python strings *)

Module PyStr.

Definition str := list ascii.

(** A string literal as a [str]. *)
Definition lit (s : string) : str := list_ascii_of_string s.

Definition ord (c : ascii) : N := N_of_ascii c.

Definition between (lo hi : N) (c : ascii) : bool :=
  (lo <=? ord c)%N && (ord c <=? hi)%N.

(** [str.isspace] on one code point below 256. *)
Definition isspace (c : ascii) : bool :=
  between 9 13 c || between 28 32 c
  || (ord c =? 133)%N || (ord c =? 160)%N.

(** [str.isalnum] on one code point below 256 (letters, decimal digits,
    and the superscript digits and vulgar fractions of Latin-1). *)
Definition isalnum (c : ascii) : bool :=
  between 48 57 c || between 65 90 c || between 97 122 c
  || (ord c =? 170)%N || (ord c =? 178)%N || (ord c =? 179)%N
  || (ord c =? 181)%N || (ord c =? 185)%N || (ord c =? 186)%N
  || between 188 190 c
  || between 192 214 c || between 216 246 c || between 248 255 c.

(** [str.lower] on one code point below 256. *)
Definition lower_char (c : ascii) : ascii :=
  if between 65 90 c || between 192 214 c || between 216 222 c
  then ascii_of_N (ord c + 32) else c.

Definition lower (s : str) : str := map lower_char s.

(** [s.lstrip()] *)
Fixpoint lstrip (s : str) : str :=
  match s with
  | c :: s' => if isspace c then lstrip s' else s
  | [] => []
  end.

(** [s.rstrip()] *)
Definition rstrip (s : str) : str := rev (lstrip (rev s)).

(** [s.strip()] *)
Definition strip (s : str) : str := rstrip (lstrip s).

(** [s.startswith(prefix)] *)
Fixpoint startswith (s prefix : str) : bool :=
  match prefix, s with
  | [], _ => true
  | p :: prefix', c :: s' => Ascii.eqb p c && startswith s' prefix'
  | _ :: _, [] => false
  end.

(** [s.endswith(suffix)] *)
Definition endswith (s suffix : str) : bool :=
  startswith (rev s) (rev suffix).

(** [s[:n]] for a non-negative [n]. *)
Definition upto (n : nat) (s : str) : str := firstn n s.

End PyStr.

Import PyStr.

(** ** The fragment of Python's [re] that the find engine reaches *)

Module Re.

(** [re.escape] as of Python 3.7: a backslash before each of the
    characters of [_special_chars_map], that is
    [()[]{}?*+-|^$\.&~# \t\n\r\v\f].  (Before 3.7 every character other
    than an ASCII letter, a digit or the underscore was escaped; the two
    agree on queries made of those, and both protect the dot.) *)
Definition special_chars : list N :=
  [40; 41; 91; 93; 123; 125; 63; 42; 43; 45; 124; 94; 36; 92; 46; 38;
   126; 35; 32; 9; 10; 13; 11; 12]%N.

Definition is_special (c : ascii) : bool :=
  existsb (N.eqb (ord c)) special_chars.

Definition backslash : ascii := ascii_of_N 92.

Definition escape (pattern : str) : str :=
  flat_map (fun c => if is_special c then [backslash; c] else [c]) pattern.

(** Compiled patterns: a sequence of literal characters and [\b]
    assertions.  Nothing else can come out of an escaped query. *)
Inductive item : Type :=
| Lit (c : ascii)
| Boundary.

Definition pattern := list item.

(** The characters [sre_parse] treats as operators: [.\[{()*+?^$|]. *)
Definition is_operator (c : ascii) : bool :=
  existsb (N.eqb (ord c)) [46; 92; 91; 123; 40; 41; 42; 43; 63; 94; 36; 124]%N.

Definition is_ascii_alnum (c : ascii) : bool :=
  between 48 57 c || between 65 90 c || between 97 122 c.

(** [re.compile] on the literal fragment.  A backslash followed by [b] is
    the word-boundary assertion, a backslash followed by a character that
    is not an ASCII letter or digit is that character, every other
    character that is not an operator stands for itself.  [None] is
    returned for a dangling backslash (for which [re.compile] raises
    [sre_constants.error]) and for every pattern outside the fragment
    (operators, classes and the other letter escapes);
    [compile_find_pattern] below shows that the patterns built by
    [_get_find_index_results] never leave the fragment. *)
Fixpoint compile (p : str) : option pattern :=
  match p with
  | [] => Some []
  | c :: rest =>
      if Ascii.eqb c backslash then
        match rest with
        | [] => None
        | d :: rest' =>
            if Ascii.eqb d "b"%char then option_map (cons Boundary) (compile rest')
            else if is_ascii_alnum d then None
            else option_map (cons (Lit d)) (compile rest')
        end
      else if is_operator c then None
      else option_map (cons (Lit c)) (compile rest)
  end.

(** A word character for [\b] on [str]: alphanumeric or underscore. *)
Definition is_word (c : ascii) : bool := isalnum c || Ascii.eqb c "_"%char.

Definition word_at (s : str) (i : nat) : bool :=
  match nth_error s i with
  | Some c => is_word c
  | None => false
  end.

(** [\b] at offset [i]: the characters on the two sides differ in being
    word characters, the outside of the string counting as non-word. *)
Definition at_boundary (s : str) (i : nat) : bool :=
  let that := match i with 0 => false | S j => word_at s j end in
  let this := word_at s i in
  negb (Bool.eqb this that).

(** Match the pattern at offset [i]; the end offset on success. *)
Fixpoint match_at (p : pattern) (s : str) (i : nat) : option nat :=
  match p with
  | [] => Some i
  | Lit c :: p' =>
      match nth_error s i with
      | Some d => if Ascii.eqb c d then match_at p' s (S i) else None
      | None => None
      end
  | Boundary :: p' =>
      if at_boundary s i then match_at p' s i else None
  end.

Definition span := (nat * nat)%type.

(** The scanning loop of [finditer]: the leftmost match at or after [i] is
    reported and the scan resumes at its end; after an empty match it
    resumes one character further.  [m] is the matcher at an offset,
    [len] the length of the subject, [fuel] bounds the offsets left. *)
Fixpoint scan (m : nat -> option nat) (len fuel i : nat) : list span :=
  match fuel with
  | 0 => []
  | S fuel' =>
      if len <? i then []
      else
        match m i with
        | Some e => (i, e) :: scan m len fuel' (if e =? i then S i else e)
        | None => scan m len fuel' (S i)
        end
  end.

(** [[m.span() for m in p.finditer(s)]] *)
Definition finditer (p : pattern) (s : str) : list span :=
  scan (match_at p s) (length s) (S (length s)) 0.

End Re.

(** ** The find engine *)

Module Find.

Import Re.

(** The pattern text built from the query: escaped once, and escaped a
    second time between two [\b] when whole words are asked for. *)
Definition find_pattern (expr : str) (wo : bool) : str :=
  let expr := escape expr in
  if wo then lit "\b" ++ escape expr ++ lit "\b" else expr.

(** The inner generator [find_all_iter]: no match at all when the pattern
    does not compile. *)
Definition find_all_iter (string sub : str) : list span :=
  match compile sub with
  | None => []
  | Some reobj => finditer reobj string
  end.

(** [NEditor._get_find_index_results(expr, cs, wo)], with the editor's
    text and the offset of its text cursor as explicit arguments.  The
    second search, [re.finditer(expr, text[:position])], runs only when the
    first one found a match, hence with a pattern that compiles. *)
Definition _get_find_index_results
    (text : str) (position : nat) (expr : str) (cs wo : bool)
  : nat * list span :=
  let text := if cs then text else lower text in
  let expr := if cs then expr else lower expr in
  let expr := find_pattern expr wo in
  let matches := find_all_iter text expr in
  let current_index :=
    match matches with
    | [] => 0
    | _ :: _ => length (find_all_iter (upto position text) expr)
    end in
  (current_index, matches).

End Find.

(** ** What the specification calls an occurrence *)

Module FindSpec.

Import Re.

(** The query [q] is read, character for character, at offset [i] of [t]. *)
Definition occurs_at (q t : str) (i : nat) : bool :=
  startswith (skipn i t) q.

Definition offsets (t : str) : list nat := seq 0 (S (length t)).

(** The spans of all literal occurrences of [q] in [t], in text order. *)
Definition literal_occurrences (q t : str) : list span :=
  map (fun i => (i, i + length q)) (filter (occurs_at q t) (offsets t)).

(** A span with a word boundary at either end. *)
Definition whole_word (t : str) (sp : span) : bool :=
  at_boundary t (fst sp) && at_boundary t (snd sp).

Definition whole_word_occurrences (q t : str) : list span :=
  filter (whole_word t) (literal_occurrences q t).

(** Left-to-right selection of spans that do not start before [next], the
    offset at which the scan resumed after the span selected last. *)
Fixpoint select_from (next : nat) (l : list span) : list span :=
  match l with
  | [] => []
  | (s, e) :: l' =>
      if next <=? s
      then (s, e) :: select_from (if e =? s then S s else e) l'
      else select_from next l'
  end.

Definition leftmost_nonoverlapping (l : list span) : list span :=
  select_from 0 l.

(** Every candidate match of a matcher [m] at the offsets [a .. a+k-1]. *)
Definition candidates (m : nat -> option nat) (a k : nat) : list span :=
  flat_map (fun j => match m j with Some e => [(j, e)] | None => [] end)
           (seq a k).

(** A span that ends at or before the offset [p]. *)
Definition ends_by (p : nat) (sp : span) : bool := snd sp <=? p.



End FindSpec.

(** ** The text cursor and the key handlers *)

Module Keys.

(** A [QTextCursor] seen from the block it stands in: the text of the
    block, the offset of the block in the document, and the offsets of the
    cursor and of its anchor in the document.  There is a selection when
    the two differ. *)
Record QTextCursor : Type := {
  block_text : str;
  block_position : nat;
  position : nat;
  anchor : nat
}.

Inductive MoveMode : Type := MoveAnchor | KeepAnchor.

Definition positionInBlock (c : QTextCursor) : nat :=
  position c - block_position c.

Definition hasSelection (c : QTextCursor) : bool :=
  negb (position c =? anchor c).

Definition atBlockStart (c : QTextCursor) : bool :=
  position c =? block_position c.

(** The cursor stands inside its block. *)
Definition in_block (c : QTextCursor) : Prop :=
  block_position c <= position c <= block_position c + length (block_text c).

(** [cursor.setPosition(pos, mode)] for an offset of the same block. *)
Definition setPosition (c : QTextCursor) (pos : nat) (mode : MoveMode)
  : QTextCursor :=
  {| block_text := block_text c;
     block_position := block_position c;
     position := pos;
     anchor := match mode with MoveAnchor => pos | KeepAnchor => anchor c end |}.

(** [cursor.movePosition(QTextCursor.StartOfBlock, mode)]; without line
    wrapping [StartOfLine] is the same move. *)
Definition moveStartOfBlock (c : QTextCursor) (mode : MoveMode) : QTextCursor :=
  setPosition c (block_position c) mode.

(** [cursor.removeSelectedText()] for a selection inside the block: the
    characters between anchor and position go, and both end at the lower
    of the two offsets. *)
Definition removeSelectedText (c : QTextCursor) : QTextCursor :=
  let lo := Nat.min (position c) (anchor c) - block_position c in
  let hi := Nat.max (position c) (anchor c) - block_position c in
  {| block_text := firstn lo (block_text c) ++ skipn hi (block_text c);
     block_position := block_position c;
     position := block_position c + lo;
     anchor := block_position c + lo |}.

(** Modelled from the spec: [BaseEditor.line_indent] of [base_editor.py],
    which is not part of the sources at hand.  The spec calls its result
    the first non-whitespace column of the line; [__smart_backspace]
    computes the same number in place as
    [len(text) - len(text.lstrip())]. *)
Definition line_indent (text : str) : nat :=
  length text - length (lstrip text).

(** Modelled from the spec: [BaseEditor.text_before_cursor] of
    [base_editor.py], the text of the block that precedes the cursor. *)
Definition text_before_cursor (c : QTextCursor) : str :=
  upto (positionInBlock c) (block_text c).

(** [NEditor.__smart_backspace], with the indenter's text as an argument.
    The result is the [accepted] flag and the cursor as the method leaves
    it; [None] stands for the [ZeroDivisionError] of an empty indent
    string.  When the test passes the indent string ends the text before
    the cursor, so the offset the cursor is sent to lies in the block. *)
Definition __smart_backspace (indentation : str) (cursor : QTextCursor)
  : option (bool * QTextCursor) :=
  let text_before_cursor := text_before_cursor cursor in
  let text := block_text cursor in
  let space_at_start_len := length text - length (lstrip text) in
  let column_number := positionInBlock cursor in
  if endswith text_before_cursor indentation
     && (space_at_start_len =? column_number)
     && negb (hasSelection cursor)
  then
    match length indentation with
    | 0 => None
    | S _ =>
        let to_remove := length text_before_cursor mod length indentation in
        let to_remove :=
          if to_remove =? 0 then length indentation else to_remove in
        let cursor := setPosition cursor (position cursor - to_remove) KeepAnchor in
        let cursor := removeSelectedText cursor in
        Some (true, cursor)
    end
  else Some (false, cursor).

(** [NEditor.__manage_key_home]; [shift] tells whether the event carries
    the shift modifier alone. *)
Definition __manage_key_home (shift : bool) (cursor : QTextCursor)
  : QTextCursor :=
  let indent := line_indent (block_text cursor) in
  let move := if shift then KeepAnchor else MoveAnchor in
  if positionInBlock cursor =? indent then
    moveStartOfBlock cursor move
  else if atBlockStart cursor then
    setPosition cursor (block_position cursor + indent) move
  else if indent <? positionInBlock cursor then
    let cursor := moveStartOfBlock cursor move in
    setPosition cursor (block_position cursor + indent) move
  else cursor.

(** The number of characters the specification has one smart backspace
    take away at column [col] under an indent string of length [n]:
    [col mod n], and [n] when that is zero. *)
Definition indent_step (col n : nat) : nat :=
  if col mod n =? 0 then n else col mod n.

(** The column the cursor is in after Home, from the column it was in and
    the indent of the line. *)
Definition home_column (col indent : nat) : nat :=
  if col =? indent then 0
  else if col =? 0 then indent
  else if indent <? col then indent
  else col.





End Keys.

(** ** Comment / uncomment *)

Module Comment.

Import Keys.

Local Open Scope Z_scope.

Definition sys_maxsize : Z := 2 ^ 63 - 1.

(** The variables of the first loop of [comment_or_uncomment]. *)
Record scan_state : Type := {
  min_indent : Z;
  comment : bool;
  card_lenght : Z;
  lines_commented : nat;
  lines_without_comment : nat
}.

Definition scan_init (card : str) : scan_state :=
  {| min_indent := sys_maxsize;
     comment := true;
     card_lenght := Z.of_nat (length card);
     lines_commented := 0;
     lines_without_comment := 0 |}.

Definition is_blank (text : str) : bool :=
  match lstrip text with [] => true | _ :: _ => false end.

(** One turn of the first loop, on the text of one block. *)
Definition scan_block (card : str) (st : scan_state) (text : str)
  : scan_state :=
  let indent := line_indent text in
  let block_text := lstrip text in
  if is_blank text then st
  else
    let min_indent := Z.min (Z.of_nat indent) (min_indent st) in
    if startswith block_text card then
      {| min_indent := min_indent;
         comment := false;
         card_lenght := card_lenght st;
         lines_commented := S (lines_commented st);
         lines_without_comment := lines_without_comment st |}
    else if startswith block_text (strip card) then
      {| min_indent := min_indent;
         comment := false;
         card_lenght := card_lenght st - 1;
         lines_commented := S (lines_commented st);
         lines_without_comment := lines_without_comment st |}
    else
      {| min_indent := min_indent;
         comment := true;
         card_lenght := card_lenght st;
         lines_commented := lines_commented st;
         lines_without_comment := S (lines_without_comment st) |}.

(** The first loop, from the state [st] on. *)
Definition scan_from (card : str) (st : scan_state) (blocks : list str)
  : scan_state :=
  fold_left (scan_block card) blocks st.

Definition scan_blocks (card : str) (blocks : list str) : scan_state :=
  scan_from card (scan_init card) blocks.

(** The operation chosen after the first loop: [true] to comment,
    [false] to uncomment. *)
Definition operation (card : str) (blocks : list str) : bool :=
  let st := scan_blocks card blocks in
  let total_lines := (lines_commented st + lines_without_comment st)%nat in
  if (0 <? lines_commented st)%nat
     && negb (lines_commented st =? total_lines)%nat
  then true
  else comment st.

(** One turn of the second loop.  The cursor goes to column [min_indent]
    of the block; in a block that is not blank the marker is inserted
    there, or the [card_lenght] characters to the right are removed (none
    when that number is not positive).  [None] is returned where the
    cursor would have to leave the block, which this model of one block
    at a time does not follow. *)
Definition edit_block (card : str) (comment : bool)
    (min_indent card_lenght : Z) (text : str) : option str :=
  if is_blank text then Some text
  else
    let col := Z.to_nat min_indent in
    let n := Z.to_nat card_lenght in
    if (length text <? col)%nat then None
    else if comment then Some (firstn col text ++ card ++ skipn col text)
    else if (length text <? col + n)%nat then None
    else Some (firstn col text ++ skipn (col + n) text).

Fixpoint edit_blocks (card : str) (comment : bool)
    (min_indent card_lenght : Z) (blocks : list str) : option (list str) :=
  match blocks with
  | [] => Some []
  | text :: rest =>
      match edit_block card comment min_indent card_lenght text,
            edit_blocks card comment min_indent card_lenght rest with
      | Some text', Some rest' => Some (text' :: rest')
      | _, _ => None
      end
  end.

(** [NEditor.comment_or_uncomment] on the texts of the blocks from
    [block_start] up to [block_end], with the comment marker [card] of the
    language as an argument; the result is the texts of the same blocks
    afterwards. *)
Definition comment_or_uncomment (card : str) (blocks : list str)
  : option (list str) :=
  let st := scan_blocks card blocks in
  edit_blocks card (operation card blocks) (min_indent st) (card_lenght st)
              blocks.

(** A block counts as commented when its text, past the leading
    whitespace, starts with the marker or with the stripped marker. *)
Definition is_commented (card : str) (text : str) : bool :=
  startswith (lstrip text) card || startswith (lstrip text) (strip card).

(** The least indent of the blocks that are not blank. *)
Definition shared_indent_opt (blocks : list str) : option nat :=
  fold_right
    (fun text acc =>
       if is_blank text then acc
       else match acc with
            | None => Some (line_indent text)
            | Some m => Some (Nat.min (line_indent text) m)
            end)
    None blocks.

Definition shared_indent (blocks : list str) : nat :=
  match shared_indent_opt blocks with Some m => m | None => 0%nat end.

(** The text [t] with the marker put in at column [m]. *)
Definition inserted (card : str) (m : nat) (t : str) : str :=
  firstn m t ++ card ++ skipn m t.

(** What commenting at column [m] makes of a block: a blank block is left
    alone. *)
Definition insert_marker (card : str) (m : nat) (t : str) : str :=
  if is_blank t then t else inserted card m t.

(** A block that carries the stripped marker only. *)
Definition is_variant (card : str) (t : str) : bool :=
  negb (is_blank t)
  && negb (startswith (lstrip t) card)
  && startswith (lstrip t) (strip card).

End Comment.

(** ** Extra selections *)

Module Selections.

Import Re Find.

(** Modelled from the spec: the class [ExtraSelection] of
    [extra_selection.py], which is not part of the sources at hand: a
    highlighted range of text with an ordering priority, the [order]
    that [ExtraSelectionManager.update] sorts by. *)
Record ExtraSelection : Type := {
  start_pos : nat;
  end_pos : nat;
  order : Z
}.

(** Python lists are objects: two names may stand for one list, and
    [list.clear] empties it for both.  The store keeps the list objects by
    identity. *)
Definition loc := nat.
Definition store := list (list ExtraSelection).

Definition deref (h : store) (l : loc) : list ExtraSelection := nth l h [].

(** A new list object. *)
Definition alloc (h : store) (v : list ExtraSelection) : store * loc :=
  (h ++ [v], length h).

(** [list.clear()] on the object [l]. *)
Fixpoint clear (h : store) (l : loc) : store :=
  match h, l with
  | [], _ => []
  | _ :: h', 0 => [] :: h'
  | v :: h', S l' => v :: clear h' l'
  end.

Definition kind := string.

(** The [OrderedDict] of the manager, in insertion order, each category
    bound to a list object. *)
Definition odict := list (kind * loc).

Fixpoint lookup (d : odict) (k : kind) : option loc :=
  match d with
  | [] => None
  | (k', l) :: d' => if String.eqb k' k then Some l else lookup d' k
  end.

(** [d[k] = l]: a bound key keeps its place, a new key goes last. *)
Fixpoint setitem (d : odict) (k : kind) (l : loc) : odict :=
  match d with
  | [] => [(k, l)]
  | (k', l') :: d' =>
      if String.eqb k' k then (k, l) :: d' else (k', l') :: setitem d' k l
  end.

(** An [ExtraSelectionManager] with its editor's side of it: the
    dictionary, and the list last handed to [setExtraSelections]. *)
Record ExtraSelectionManager : Type := {
  selections : odict;
  rendered : list ExtraSelection
}.

Definition empty_manager : ExtraSelectionManager :=
  {| selections := []; rendered := [] |}.

(** [sorted(selections, key=lambda sel: sel.order)], a stable sort. *)
Fixpoint insert_by_order (x : ExtraSelection) (l : list ExtraSelection)
  : list ExtraSelection :=
  match l with
  | [] => [x]
  | y :: l' =>
      if (order x <=? order y)%Z then x :: y :: l'
      else y :: insert_by_order x l'
  end.

Definition sorted_by_order (l : list ExtraSelection) : list ExtraSelection :=
  fold_right insert_by_order [] l.

(** The selections of all categories, in the order of the dictionary. *)
Definition flatten (h : store) (d : odict) : list ExtraSelection :=
  flat_map (fun kl => deref h (snd kl)) d.

(** [ExtraSelectionManager.update] *)
Definition update (h : store) (m : ExtraSelectionManager)
  : ExtraSelectionManager :=
  {| selections := selections m;
     rendered := sorted_by_order (flatten h (selections m)) |}.

(** The argument of [add]: a list object, or one selection. *)
Inductive selection_arg : Type :=
| AList (l : loc)
| ASingle (sel : ExtraSelection).

(** [ExtraSelectionManager.add] *)
Definition add (h : store) (m : ExtraSelectionManager)
    (k : kind) (selection : selection_arg) : store * ExtraSelectionManager :=
  let '(h, l) :=
    match selection with
    | AList l => (h, l)
    | ASingle sel => alloc h [sel]
    end in
  let m := {| selections := setitem (selections m) k l;
              rendered := rendered m |} in
  (h, update h m).

(** [ExtraSelectionManager.remove] *)
Definition remove (h : store) (m : ExtraSelectionManager) (k : kind)
  : store * ExtraSelectionManager :=
  match lookup (selections m) k with
  | Some l => let h := clear h l in (h, update h m)
  | None => (h, m)
  end.

(** [ExtraSelectionManager.get] *)
Definition get (h : store) (m : ExtraSelectionManager) (k : kind)
  : list ExtraSelection :=
  match lookup (selections m) k with
  | Some l => deref h l
  | None => []
  end.

(** [ExtraSelectionManager.items] *)
Definition items (m : ExtraSelectionManager) : list (kind * loc) :=
  selections m.

(** The part of [NEditor.link] that concerns the extra selections: every
    category of the original is added to the clone, with the list object
    the original holds. *)
Definition link (h : store) (self clone : ExtraSelectionManager)
  : store * ExtraSelectionManager :=
  fold_left
    (fun (acc : store * ExtraSelectionManager) (kl : kind * loc) =>
       add (fst acc) (snd acc) (fst kl) (AList (snd kl)))
    (items self) (h, clone).

(** Modelled from the spec: the constructor call
    [ExtraSelection(cursor, start_pos=..., end_pos=...)]; the priority of
    a fresh selection is taken to be [0]. *)
Definition new_selection (sp : span) : ExtraSelection :=
  {| start_pos := fst sp; end_pos := snd sp; order := 0 |}.

(** [NEditor.highlight_selected_word], with the editor's text, the offset
    of its cursor and the word under the cursor as arguments. *)
Definition highlight_selected_word
    (h : store) (m : ExtraSelectionManager)
    (text : str) (position : nat) (word : str)
  : store * ExtraSelectionManager :=
  let '(h, m) := remove h m "occurrences"%string in
  match get h m "find"%string with
  | _ :: _ => (h, m)
  | [] =>
      match word with
      | [] => (h, m)
      | _ :: _ =>
          let results :=
            snd (_get_find_index_results text position word false true) in
          let selections := map new_selection (firstn 500 results) in
          let '(h, l) := alloc h selections in
          add h m "occurrences"%string (AList l)
      end
  end.

(** The dictionary is a dictionary, and the lists it names exist. *)
Definition well_formed (h : store) (m : ExtraSelectionManager) : Prop :=
  NoDup (map fst (selections m))
  /\ Forall (fun kl => snd kl < length h) (selections m).

(** The selections an argument of [add] stands for. *)
Definition arg_value (h : store) (a : selection_arg) : list ExtraSelection :=
  match a with
  | AList l => deref h l
  | ASingle sel => [sel]
  end.

(** A list handed to [add] is a list that exists. *)
Definition arg_ok (h : store) (a : selection_arg) : Prop :=
  match a with
  | AList l => l < length h
  | ASingle _ => True
  end.

(** The selections of the categories other than [k]. *)
Definition others (h : store) (d : odict) (k : kind) : list ExtraSelection :=
  flat_map
    (fun kl => if String.eqb (fst kl) k then [] else deref h (snd kl)) d.

(** [ExtraSelectionManager.remove_all]: the categories are visited in the
    order of the dictionary, which [remove] leaves as it is. *)
Definition remove_all (h : store) (m : ExtraSelectionManager)
  : store * ExtraSelectionManager :=
  fold_left
    (fun (acc : store * ExtraSelectionManager) (k : kind) =>
       remove (fst acc) (snd acc) k)
    (map fst (selections m)) (h, m).

(** [NEditor.highlight_found_results(text, cs, wo, highlight)], with the
    editor's text and the offset of its cursor as arguments; the markers of
    the scrollbar are left out.  The result is the pair the method returns
    and the store and manager it leaves. *)
Definition highlight_found_results
    (h : store) (m : ExtraSelectionManager)
    (editor_text : str) (position : nat)
    (text : str) (cs wo highlight : bool)
  : (nat * nat) * (store * ExtraSelectionManager) :=
  let '(index, results) :=
    _get_find_index_results editor_text position text cs wo in
  let state :=
    if highlight then
      let selections := map new_selection results in
      let '(h, l) := alloc h selections in
      add h m "find"%string (AList l)
    else (h, m) in
  ((index, length results), state).

(** [NEditor.reset_selections], the scrollbar left out. *)
Definition reset_selections (h : store) (m : ExtraSelectionManager)
  : store * ExtraSelectionManager :=
  remove h m "find"%string.

(** [NEditor.clear_link], the shape of the mouse cursor left out. *)
Definition clear_link (h : store) (m : ExtraSelectionManager)
  : store * ExtraSelectionManager :=
  remove h m "link"%string.



(** The order [update] sorts by, and the selections of one priority. *)
Definition by_order (a b : ExtraSelection) : Prop := (order a <= order b)%Z.

Definition has_order (z : Z) (sel : ExtraSelection) : bool :=
  (order sel =? z)%Z.


(** [ExtraSelectionManager.__iter__] and [__len__]: the categories, in the
    order of the dictionary, and their number. *)
Definition __iter__ (m : ExtraSelectionManager) : list kind :=
  map fst (selections m).

Definition __len__ (m : ExtraSelectionManager) : nat :=
  length (selections m).

(** [ExtraSelectionManager.__getitem__]; [None] stands for the
    [KeyError] of a category that is not there. *)
Definition __getitem__ (h : store) (m : ExtraSelectionManager) (k : kind)
  : option (list ExtraSelection) :=
  match lookup (selections m) k with
  | Some l => Some (deref h l)
  | None => None
  end.

End Selections.

(** * Properties *)

Import Re Find FindSpec Keys Comment Selections.

(** ** Strings *)

Lemma nth_error_skipn_cons (A : Type) (t : list A) (i : nat) (d : A) :
  nth_error t i = Some d -> skipn i t = d :: skipn (S i) t.
Proof.
  revert i; induction t as [|x t IH]; intros [|i] H; simpl in *; try discriminate.
  - now inversion H.
  - now apply IH.
Qed.

Lemma nth_error_skipn_nil (A : Type) (t : list A) (i : nat) :
  nth_error t i = None -> skipn i t = [].
Proof.
  intros H. apply nth_error_None in H. now apply skipn_all2.
Qed.

Lemma startswith_app (s p : str) : startswith (p ++ s) p = true.
Proof.
  induction p as [|c p IH]; simpl; [now destruct s|].
  now rewrite Ascii.eqb_refl, IH.
Qed.

Lemma startswith_spec (s p : str) :
  startswith s p = true <-> exists r, s = p ++ r.
Proof.
  split.
  - revert s; induction p as [|c p IH]; intros s H.
    + now exists s.
    + destruct s as [|d s]; simpl in H; [discriminate|].
      apply andb_true_iff in H as [Hc Hs].
      apply Ascii.eqb_eq in Hc; subst d.
      destruct (IH _ Hs) as [r ->]. now exists r.
  - intros [r ->]. apply startswith_app.
Qed.

Lemma startswith_nil (s : str) : startswith s [] = true.
Proof. now destruct s. Qed.

(** ** The scanning loop *)

Section Scan.

Variable m : nat -> option nat.

(** A match never ends before it starts. *)
Hypothesis m_forward : forall i e, m i = Some e -> i <= e.

Lemma candidates_cons (a k : nat) :
  candidates m a (S k) =
  match m a with Some e => [(a, e)] | None => [] end ++ candidates m (S a) k.
Proof. reflexivity. Qed.

Lemma select_from_head (n n' : nat) (l : list span) :
  match l with [] => True | sp :: _ => n <= fst sp /\ n' <= fst sp end ->
  select_from n l = select_from n' l.
Proof.
  destruct l as [|[s e] l]; simpl; [reflexivity|].
  intros [H1 H2].
  apply Nat.leb_le in H1, H2. now rewrite H1, H2.
Qed.

Lemma candidates_head (a k : nat) :
  match candidates m a k with [] => True | sp :: _ => a <= fst sp end.
Proof.
  revert a; induction k as [|k IH]; intros a; [exact I|].
  rewrite candidates_cons.
  destruct (m a) as [e|]; simpl; [lia|].
  specialize (IH (S a)).
  destruct (candidates m (S a) k) as [|sp l]; [exact I|lia].
Qed.

(** Candidates that start before the resumption offset are skipped. *)
Lemma select_from_skip (n a k : nat) :
  a <= n ->
  select_from n (candidates m a k) = select_from n (candidates m n (a + k - n)).
Proof.
  revert a; induction k as [|k IH]; intros a Han.
  - replace (a + 0 - n) with 0 by lia. reflexivity.
  - destruct (Nat.eq_dec a n) as [->|Hne].
    + now replace (n + S k - n) with (S k) by lia.
    + rewrite candidates_cons.
      replace (a + S k - n) with (S a + k - n) by lia.
      rewrite <- IH by lia.
      destruct (m a) as [e|]; simpl; [|reflexivity].
      destruct (Nat.leb_spec n a); [lia|reflexivity].
Qed.

(** The loop reports the leftmost non-overlapping candidates. *)
Lemma scan_select (len fuel i : nat) :
  S len - i <= fuel ->
  scan m len fuel i = select_from i (candidates m i (S len - i)).
Proof.
  revert i; induction fuel as [|fuel IH]; intros i Hf.
  - replace (S len - i) with 0 by lia. reflexivity.
  - cbn [scan]. destruct (Nat.ltb_spec len i) as [Hlt|Hle].
    + replace (S len - i) with 0 by lia. reflexivity.
    + replace (S len - i) with (S (len - i)) by lia.
      rewrite candidates_cons.
      destruct (m i) as [e|] eqn:Hm; cbn [app select_from].
      * rewrite Nat.leb_refl. f_equal.
        set (next := if e =? i then S i else e).
        assert (Hn : S i <= next).
        { subst next. apply m_forward in Hm.
          destruct (Nat.eqb_spec e i); lia. }
        rewrite IH by lia.
        rewrite (select_from_skip next (S i) (len - i)) by lia.
        do 2 f_equal. lia.
      * rewrite IH by lia.
        replace (S len - S i) with (len - i) by lia.
        apply select_from_head.
        pose proof (candidates_head (S i) (len - i)) as Hh.
        destruct (candidates m (S i) (len - i)); [exact I|lia].
Qed.

End Scan.

Lemma match_at_forward (p : pattern) (s : str) (i e : nat) :
  match_at p s i = Some e -> i <= e.
Proof.
  revert i; induction p as [|[c|] p IH]; intros i H; simpl in H.
  - inversion H; lia.
  - destruct (nth_error s i) as [d|]; [|discriminate].
    destruct (Ascii.eqb c d); [|discriminate].
    apply IH in H. lia.
  - destruct (at_boundary s i); [|discriminate]. now apply IH.
Qed.

Lemma finditer_select (p : pattern) (s : str) :
  finditer p s =
  leftmost_nonoverlapping (candidates (match_at p s) 0 (S (length s))).
Proof.
  unfold finditer, leftmost_nonoverlapping.
  rewrite scan_select; [now rewrite Nat.sub_0_r| |lia].
  intros i e. apply match_at_forward.
Qed.

(** ** Matching an escaped query *)

Lemma match_at_app (p1 p2 : pattern) (s : str) (i : nat) :
  match_at (p1 ++ p2) s i =
  match match_at p1 s i with
  | Some j => match_at p2 s j
  | None => None
  end.
Proof.
  revert i; induction p1 as [|[c|] p1 IH]; intros i; simpl; [reflexivity| |].
  - destruct (nth_error s i) as [d|]; [|reflexivity].
    destruct (Ascii.eqb c d); [apply IH|reflexivity].
  - destruct (at_boundary s i); [apply IH|reflexivity].
Qed.

Lemma match_at_literal (q t : str) (i : nat) :
  match_at (map Lit q) t i =
  if occurs_at q t i then Some (i + length q) else None.
Proof.
  unfold occurs_at.
  revert i; induction q as [|c q IH]; intros i; cbn [map match_at length].
  - rewrite startswith_nil. f_equal. lia.
  - destruct (nth_error t i) as [d|] eqn:Hn.
    + rewrite (nth_error_skipn_cons _ _ _ _ Hn). cbn [startswith].
      destruct (Ascii.eqb c d); cbn [andb]; [|reflexivity].
      rewrite IH. now replace (S i + length q) with (i + S (length q)) by lia.
    + now rewrite (nth_error_skipn_nil _ _ _ Hn).
Qed.

Lemma match_at_whole_word (q t : str) (i : nat) :
  match_at (Boundary :: map Lit q ++ [Boundary]) t i =
  if occurs_at q t i && whole_word t (i, i + length q)
  then Some (i + length q) else None.
Proof.
  unfold whole_word; simpl.
  destruct (at_boundary t i); simpl; [|now rewrite andb_false_r].
  rewrite match_at_app, match_at_literal.
  destruct (occurs_at q t i); simpl; [|reflexivity].
  now destruct (at_boundary t (i + length q)).
Qed.

Lemma candidates_fixed_width (m : nat -> option nat) (P : nat -> bool) (n a k : nat) :
  (forall i, m i = if P i then Some (i + n) else None) ->
  candidates m a k = map (fun i => (i, i + n)) (filter P (seq a k)).
Proof.
  intros Hm. unfold candidates.
  induction (seq a k) as [|j l IH]; simpl; [reflexivity|].
  rewrite Hm, IH. now destruct (P j).
Qed.

Lemma candidates_literal (q t : str) :
  candidates (match_at (map Lit q) t) 0 (S (length t)) = literal_occurrences q t.
Proof.
  apply candidates_fixed_width. intros i. apply match_at_literal.
Qed.

Lemma candidates_whole_word (q t : str) :
  candidates (match_at (Boundary :: map Lit q ++ [Boundary]) t) 0 (S (length t))
  = whole_word_occurrences q t.
Proof.
  unfold whole_word_occurrences, literal_occurrences, offsets, candidates.
  induction (seq 0 (S (length t))) as [|j l IH]; [reflexivity|].
  cbn [flat_map filter map].
  rewrite match_at_whole_word, IH.
  destruct (occurs_at q t j); cbn [andb map filter]; [|reflexivity].
  now destruct (whole_word t (j, j + length q)).
Qed.

(** ** Escaping and compiling *)

Lemma special_not_letter (c : ascii) :
  is_special c = true ->
  Ascii.eqb c "b"%char = false /\ is_ascii_alnum c = false.
Proof.
  destruct c as [[] [] [] [] [] [] [] []]; vm_compute; intros H;
    first [discriminate H | now split].
Qed.

Lemma plain_not_operator (c : ascii) :
  is_special c = false ->
  Ascii.eqb c backslash = false /\ is_operator c = false.
Proof.
  destruct c as [[] [] [] [] [] [] [] []]; vm_compute; intros H;
    first [discriminate H | now split].
Qed.

(** An escaped string compiles to the literal characters it was made of,
    whatever pattern text follows it. *)
Lemma compile_escape_app (q rest : str) :
  compile (escape q ++ rest) = option_map (app (map Lit q)) (compile rest).
Proof.
  induction q as [|c q IH]; simpl.
  - now destruct (compile rest).
  - destruct (is_special c) eqn:Hs; cbn [app compile].
    + destruct (special_not_letter c Hs) as [-> ->].
      rewrite Ascii.eqb_refl, IH. now destruct (compile rest).
    + destruct (plain_not_operator c Hs) as [-> ->].
      rewrite IH. now destruct (compile rest).
Qed.

(** The pattern text built from a query always compiles: to the query's
    characters, or, for whole words, to the characters of the escaped query
    between two boundary assertions. *)
Lemma compile_find_pattern (expr : str) (wo : bool) :
  compile (find_pattern expr wo) =
  Some (if wo then Boundary :: map Lit (escape expr) ++ [Boundary]
        else map Lit expr).
Proof.
  unfold find_pattern. destruct wo.
  - change (lit "\b" ++ escape (escape expr) ++ lit "\b")
      with (backslash :: "b"%char :: (escape (escape expr) ++ lit "\b")).
    cbn [compile]. rewrite Ascii.eqb_refl. cbn [Ascii.eqb Bool.eqb].
    rewrite compile_escape_app. reflexivity.
  - rewrite <- (app_nil_r (escape expr)), compile_escape_app. simpl.
    now rewrite app_nil_r.
Qed.

Lemma escape_plain (q : str) :
  Forall (fun c => is_special c = false) q -> escape q = q.
Proof.
  induction 1 as [|c q Hc _ IH]; simpl; [reflexivity|].
  now rewrite Hc, IH.
Qed.

(** What the engine returns, for every query. *)
Lemma find_matches (text : str) (position : nat) (expr : str) (wo : bool) :
  snd (_get_find_index_results text position expr true wo) =
  leftmost_nonoverlapping
    (if wo then whole_word_occurrences (escape expr) text
     else literal_occurrences expr text).
Proof.
  unfold _get_find_index_results, find_all_iter; cbn [snd].
  rewrite compile_find_pattern, finditer_select.
  destruct wo; [now rewrite candidates_whole_word|now rewrite candidates_literal].
Qed.

(** ** Searching the text cut at the cursor *)

Lemma startswith_firstn (q s : str) (k : nat) :
  startswith (firstn k s) q = startswith s q && (length q <=? k).
Proof.
  revert s k; induction q as [|c q IH]; intros s k.
  - now rewrite !startswith_nil.
  - destruct k as [|k]; destruct s as [|d s]; cbn [firstn startswith length];
      try reflexivity.
    + now rewrite andb_false_r.
    + rewrite IH. now rewrite andb_assoc.
Qed.

Lemma occurs_at_firstn (q t : str) (p i : nat) :
  i <= p ->
  occurs_at q (firstn p t) i = occurs_at q t i && (i + length q <=? p).
Proof.
  intros Hi. unfold occurs_at.
  replace (skipn i (firstn p t)) with (firstn (p - i) (skipn i t)).
  - rewrite startswith_firstn. f_equal.
    destruct (Nat.leb_spec (length q) (p - i)), (Nat.leb_spec (i + length q) p);
      try reflexivity; lia.
  - symmetry. apply skipn_firstn_comm.
Qed.

Section FixedWidth.

Variables (w p : nat) (P : nat -> bool).

Let g (i : nat) : span := (i, i + w).

Lemma late_spans_dropped (b k : nat) :
  p < b + w -> filter (ends_by p) (map g (filter P (seq b k))) = [].
Proof.
  revert b; induction k as [|k IH]; intros b Hb; [reflexivity|].
  cbn [seq filter]. destruct (P b); cbn [map filter].
  - unfold ends_by at 1; cbn [snd g].
    destruct (Nat.leb_spec (b + w) p); [lia|]. apply IH; lia.
  - apply IH; lia.
Qed.

Lemma select_from_incl (n : nat) (l : list span) :
  incl (select_from n l) l.
Proof.
  revert n; induction l as [|[s e] l IH]; intros n; cbn [select_from].
  - apply incl_refl.
  - destruct (n <=? s).
    + apply incl_cons; [now left|]. apply incl_tl, IH.
    + apply incl_tl, IH.
Qed.

Lemma filter_none (A : Type) (F : A -> bool) (l l' : list A) :
  filter F l = [] -> incl l' l -> filter F l' = [].
Proof.
  intros Hl Hincl.
  destruct (filter F l') as [|x r] eqn:E; [reflexivity|].
  assert (Hx : In x (filter F l')) by (rewrite E; now left).
  apply filter_In in Hx as [Hx HF].
  assert (Hx' : In x (filter F l)) by (apply filter_In; auto).
  rewrite Hl in Hx'. destruct Hx'.
Qed.

(** Dropping the spans that end after [p] commutes with the selection. *)
Lemma select_from_ends_by (k a n : nat) :
  select_from n (filter (ends_by p) (map g (filter P (seq a k)))) =
  filter (ends_by p) (select_from n (map g (filter P (seq a k)))).
Proof.
  revert a n; induction k as [|k IH]; intros a n; [reflexivity|].
  cbn [seq filter]. destruct (P a) eqn:HP; [|apply IH].
  cbn [map filter]. unfold ends_by at 1; cbn [snd g].
  destruct (Nat.leb_spec (a + w) p) as [Hle|Hgt].
  - cbn [select_from]. unfold g at 1 4. 
    destruct (n <=? a); [|apply IH].
    cbn [filter]. unfold ends_by at 2; cbn [snd].
    destruct (Nat.leb_spec (a + w) p); [|lia].
    f_equal. apply IH.
  - rewrite late_spans_dropped by lia. cbn [select_from].
    symmetry. apply filter_none with (l := map g (filter P (seq a (S k)))).
    + apply late_spans_dropped; lia.
    + cbn [seq filter]. rewrite HP. apply (select_from_incl n (g a :: _)).
Qed.

End FixedWidth.

Lemma literal_occurrences_firstn (q t : str) (p : nat) :
  literal_occurrences q (firstn p t) =
  filter (ends_by p) (literal_occurrences q t).
Proof.
  unfold literal_occurrences, offsets.
  rewrite length_firstn.
  set (p' := Nat.min p (length t)).
  replace (S (length t)) with (S p' + (length t - p')) by lia.
  rewrite seq_app, filter_app, map_app, filter_app.
  match goal with |- _ = _ ++ ?tail => assert (Htail : tail = []) end.
  { destruct (Nat.le_gt_cases (length t) p).
    - now replace (length t - p') with 0 by lia.
    - apply late_spans_dropped. lia. }
  rewrite Htail, app_nil_r. clear Htail.
  assert (Hseq : forall i, In i (seq 0 (S p')) -> i <= p)
    by (intros i Hi; apply in_seq in Hi; lia).
  induction (seq 0 (S p')) as [|j l IH]; [reflexivity|].
  cbn [filter]. rewrite occurs_at_firstn by (apply Hseq; now left).
  destruct (occurs_at q t j); cbn [andb map filter].
  - unfold ends_by at 1; cbn [snd].
    destruct (j + length q <=? p); cbn [map]; [f_equal|];
      apply IH; intros i Hi; apply Hseq; now right.
  - apply IH; intros i Hi; apply Hseq; now right.
Qed.

Lemma finditer_literal_firstn (q t : str) (p : nat) :
  finditer (map Lit q) (firstn p t) =
  filter (ends_by p) (finditer (map Lit q) t).
Proof.
  rewrite !finditer_select, !candidates_literal, literal_occurrences_firstn.
  unfold leftmost_nonoverlapping, literal_occurrences, offsets.
  apply select_from_ends_by.
Qed.

(** ** Whole words of word characters *)

Lemma word_not_special (c : ascii) : is_word c = true -> is_special c = false.
Proof.
  destruct c as [[] [] [] [] [] [] [] []]; vm_compute; intros H;
    first [discriminate H | reflexivity].
Qed.

Lemma occurs_at_nth (q t : str) (i d : nat) :
  occurs_at q t i = true -> d < length q ->
  nth_error t (i + d) = nth_error q d.
Proof.
  unfold occurs_at. intros H Hd.
  apply startswith_spec in H as [r Hr].
  rewrite <- nth_error_skipn, Hr. now apply nth_error_app1.
Qed.

Lemma word_inside_occurrence (q t : str) (i j : nat) :
  Forall (fun c => is_word c = true) q ->
  occurs_at q t i = true -> i <= j < i + length q -> word_at t j = true.
Proof.
  intros Hq Hocc Hj. unfold word_at.
  replace j with (i + (j - i)) by lia.
  rewrite (occurs_at_nth q t i (j - i)) by (assumption || lia).
  destruct (nth_error q (j - i)) as [c|] eqn:E.
  - rewrite Forall_forall in Hq. apply Hq. eapply nth_error_In; eassumption.
  - apply nth_error_None in E. lia.
Qed.

Lemma no_boundary_inside (q t : str) (i j : nat) :
  Forall (fun c => is_word c = true) q ->
  occurs_at q t i = true -> i < j -> j < i + length q ->
  at_boundary t j = false.
Proof.
  intros Hq Hocc Hij Hj. unfold at_boundary.
  destruct j as [|j']; [lia|].
  rewrite (word_inside_occurrence q t i j') by (assumption || lia).
  now rewrite (word_inside_occurrence q t i (S j')) by (assumption || lia).
Qed.

(** Spans of one width that keep clear of each other are all selected. *)
Lemma select_from_separated (w : nat) (P : nat -> bool) :
  (forall i j, P i = true -> i < j -> j < i + w -> P j = false) ->
  forall k a n,
    (forall j, a <= j -> j < n -> P j = false) ->
    select_from n (map (fun i => (i, i + w)) (filter P (seq a k)))
    = map (fun i => (i, i + w)) (filter P (seq a k)).
Proof.
  intros Hsep. induction k as [|k IH]; intros a n Hlow; [reflexivity|].
  cbn [seq filter]. destruct (P a) eqn:HP.
  - cbn [map select_from].
    destruct (Nat.leb_spec n a) as [Hna|Hna].
    + f_equal. apply IH. intros j Hj1 Hj2.
      destruct (Nat.eqb_spec (a + w) a); [lia|].
      apply (Hsep a j); auto; lia.
    + rewrite (Hlow a) in HP by lia. discriminate.
  - apply IH. intros j Hj1 Hj2. apply Hlow; lia.
Qed.

Lemma whole_word_occurrences_filter (q t : str) :
  whole_word_occurrences q t =
  map (fun i => (i, i + length q))
      (filter (fun i => occurs_at q t i && whole_word t (i, i + length q))
              (offsets t)).
Proof.
  unfold whole_word_occurrences, literal_occurrences.
  induction (offsets t) as [|j l IH]; [reflexivity|].
  cbn [filter]. destruct (occurs_at q t j); cbn [andb map filter]; [|exact IH].
  destruct (whole_word t (j, j + length q)); cbn [map]; now rewrite IH.
Qed.

(** A whole-word query made of word characters only: the matches are all
    the occurrences that have a word boundary at either end. *)
Lemma find_whole_word_identifier (text : str) (position : nat) (expr : str) :
  Forall (fun c => is_word c = true) expr ->
  snd (_get_find_index_results text position expr true true)
  = whole_word_occurrences expr text.
Proof.
  intros Hw. rewrite find_matches.
  rewrite escape_plain
    by (eapply Forall_impl; [|exact Hw]; intros c; apply word_not_special).
  unfold leftmost_nonoverlapping.
  rewrite whole_word_occurrences_filter. unfold offsets.
  apply select_from_separated.
  - intros i j Hi Hij Hj.
    apply andb_true_iff in Hi as [Hocc _].
    unfold whole_word; cbn [fst snd].
    rewrite (no_boundary_inside expr text i j) by assumption.
    now rewrite andb_false_r.
  - intros j Hj1 Hj2. lia.
Qed.

(** ** The find engine: what it returns *)

(** C1 (amended).  With [case_sensitive] on, the matches are the literal
    occurrences of the query met by a left-to-right scan that resumes at the
    end of each reported span, so an occurrence overlapping a reported one
    is not reported; with [whole_word] on and a query free of the characters
    that [re.escape] protects, they are the occurrences with a word boundary
    at either end, selected the same way. *)
Theorem find_reports_leftmost_occurrences
    (text : str) (position : nat) (expr : str) (wo : bool) :
  (wo = true -> Forall (fun c => is_special c = false) expr) ->
  snd (_get_find_index_results text position expr true wo) =
  leftmost_nonoverlapping
    (if wo then whole_word_occurrences expr text
     else literal_occurrences expr text).
Proof.
  intros Hplain. rewrite find_matches.
  destruct wo; [|reflexivity].
  now rewrite escape_plain by auto.
Qed.

Lemma find_reports_leftmost_occurrences_witness :
  snd (_get_find_index_results (lit "cat category") 0 (lit "cat") true true)
  = [(0, 3)]
  /\ snd (_get_find_index_results (lit "cat category") 0 (lit "cat") true false)
  = [(0, 3); (4, 7)].
Proof.
  split.
  - rewrite (find_reports_leftmost_occurrences (lit "cat category") 0 (lit "cat") true).
    + reflexivity.
    + intros _. repeat constructor.
  - rewrite (find_reports_leftmost_occurrences (lit "cat category") 0 (lit "cat") false).
    + reflexivity.
    + intros H; discriminate H.
Defined.

(** C1 as stated fails twice: overlapping occurrences are not all reported,
    and a whole-word query holding a protected character is escaped twice,
    so its own occurrences are missed. *)
Lemma find_exact_occurrences_counterexample :
  snd (_get_find_index_results (lit "aaa") 0 (lit "aa") true false)
    <> literal_occurrences (lit "aa") (lit "aaa")
  /\ snd (_get_find_index_results (lit "x = a.b") 0 (lit "a.b") true true)
    <> whole_word_occurrences (lit "a.b") (lit "x = a.b").
Proof.
  split; vm_compute; discriminate.
Qed.

(** C7 (amended).  With [whole_word] off, [current_index] is the number of
    matches that end at or before the cursor offset. *)
Theorem current_index_counts_matches_ended
    (text : str) (position : nat) (expr : str) (cs : bool) :
  let r := _get_find_index_results text position expr cs false in
  fst r = length (filter (ends_by position) (snd r)).
Proof.
  unfold _get_find_index_results, find_all_iter, upto; cbn [fst snd].
  rewrite compile_find_pattern.
  rewrite finditer_literal_firstn.
  now destruct (finditer _ _).
Qed.

(** C7 as stated fails: a match that starts before the cursor and ends after
    it is not counted. *)
Lemma current_index_counterexample :
  let r := _get_find_index_results (lit "abc") 1 (lit "abc") true false in
  snd r = [(0, 3)] /\ fst r = 0
  /\ fst r <> length (filter (fun sp => fst sp <? 1) (snd r)).
Proof.
  vm_compute. repeat split. discriminate.
Qed.

(** ** The empty query *)

Lemma scan_empty_pattern (t : str) (len fuel i : nat) :
  S len - i <= fuel ->
  scan (match_at [] t) len fuel i = map (fun j => (j, j)) (seq i (S len - i)).
Proof.
  revert i; induction fuel as [|fuel IH]; intros i Hf.
  - now replace (S len - i) with 0 by lia.
  - cbn [scan match_at]. destruct (Nat.ltb_spec len i).
    + now replace (S len - i) with 0 by lia.
    + rewrite Nat.eqb_refl, IH by lia.
      replace (S len - i) with (S (S len - S i)) by lia. reflexivity.
Qed.

Lemma finditer_empty_pattern (t : str) :
  finditer [] t = map (fun j => (j, j)) (seq 0 (S (length t))).
Proof.
  unfold finditer. rewrite scan_empty_pattern by lia. now rewrite Nat.sub_0_r.
Qed.

Lemma deref_clear (h : store) (l : loc) : deref (clear h l) l = [].
Proof.
  unfold deref. revert l; induction h as [|v h IH]; intros [|l]; simpl; auto.
Qed.

Lemma get_after_remove (h : store) (m : ExtraSelectionManager) (k : kind) :
  get (fst (remove h m k)) (snd (remove h m k)) k = [].
Proof.
  unfold remove, get.
  destruct (lookup (selections m) k) as [l|] eqn:E; cbn [fst snd update selections].
  - rewrite E. apply deref_clear.
  - now rewrite E.
Qed.

(** C5 (amended).  The engine itself does not special-case the empty query:
    with [whole_word] off it reports a zero-width match at every offset of
    the text, and [current_index] is one more than the cursor offset.  The
    empty result belongs to [highlight_selected_word], which clears the
    occurrences and returns before searching when no word is under the
    cursor. *)
Theorem find_empty_query (text : str) (position : nat) (cs : bool) :
  _get_find_index_results text position [] cs false =
    (S (Nat.min position (length text)),
     map (fun i => (i, i)) (seq 0 (S (length text))))
  /\ forall h m,
       highlight_selected_word h m text position [] = remove h m "occurrences"%string
       /\ get (fst (highlight_selected_word h m text position []))
              (snd (highlight_selected_word h m text position []))
              "occurrences"%string = [].
Proof.
  split.
  - unfold _get_find_index_results, find_all_iter, upto.
    destruct cs; cbn [lower map find_pattern escape flat_map compile];
      rewrite !finditer_empty_pattern, length_firstn, ?length_map;
      cbn [seq map length]; unfold lower; now rewrite ?length_map, length_seq.
  - intros h m.
    assert (E : highlight_selected_word h m text position []
                = remove h m "occurrences"%string).
    { unfold highlight_selected_word.
      destruct (remove h m "occurrences"%string) as [h' m'].
      now destruct (get h' m' "find"%string). }
    split; [exact E|]. rewrite E. apply get_after_remove.
Qed.

(** C5 as stated fails: three characters, four matches. *)
Lemma find_empty_query_counterexample :
  _get_find_index_results (lit "abc") 0 [] true false
  = (1, [(0, 0); (1, 1); (2, 2); (3, 3)])
  /\ _get_find_index_results (lit "abc") 0 [] true false <> (0, []).
Proof.
  split; [reflexivity|discriminate].
Qed.

(** ** Smart backspace and Home *)

Lemma endswith_length (s suffix : str) :
  endswith s suffix = true -> length suffix <= length s.
Proof.
  unfold endswith. intros H.
  apply startswith_spec in H as [r Hr].
  apply (f_equal (@length ascii)) in Hr.
  rewrite length_app, !length_rev in Hr. lia.
Qed.

Lemma line_indent_le (text : str) : line_indent text <= length text.
Proof. unfold line_indent. lia. Qed.

(** C3.  At the first non-whitespace column, without a selection and with
    the indent string just before the cursor, backspace removes
    [len(text_before_cursor) mod len(indentation)] characters, a whole indent
    string when that is zero, and leaves the cursor where the removed text
    began. *)
Theorem smart_backspace_removes_indent_step
    (indentation : str) (c : QTextCursor) :
  in_block c ->
  indentation <> [] ->
  endswith (text_before_cursor c) indentation = true ->
  line_indent (block_text c) = positionInBlock c ->
  hasSelection c = false ->
  let col := positionInBlock c in
  let removed := indent_step (length (text_before_cursor c)) (length indentation) in
  exists c',
    __smart_backspace indentation c = Some (true, c')
    /\ length (text_before_cursor c) = col
    /\ block_text c' =
         firstn (col - removed) (block_text c) ++ skipn col (block_text c)
    /\ length (block_text c') + removed = length (block_text c)
    /\ positionInBlock c' = col - removed
    /\ hasSelection c' = false
    /\ 1 <= removed <= length indentation.
Proof.
  intros [Hlo Hhi] Hne Hends Hind Hsel col removed.
  assert (Hcol : col <= length (block_text c))
    by (subst col; rewrite <- Hind; apply line_indent_le).
  assert (Hbefore : length (text_before_cursor c) = col).
  { unfold text_before_cursor, upto. rewrite length_firstn. fold col. lia. }
  assert (Hn : 0 < length indentation)
    by (destruct indentation; [congruence|simpl; lia]).
  assert (Hle : length indentation <= col)
    by (rewrite <- Hbefore; now apply endswith_length).
  assert (Hrem : 1 <= removed <= length indentation).
  { subst removed. unfold indent_step. rewrite Hbefore.
    pose proof (Nat.mod_upper_bound col (length indentation)).
    destruct (Nat.eqb_spec (col mod length indentation) 0); lia. }
  assert (Hanchor : anchor c = position c).
  { unfold hasSelection in Hsel. apply negb_false_iff in Hsel.
    apply Nat.eqb_eq in Hsel. congruence. }
  assert (Hpos : position c = block_position c + col)
    by (subst col; unfold positionInBlock; lia).
  eexists. split.
  - unfold __smart_backspace.
    fold (line_indent (block_text c)).
    rewrite Hends, Hind, Nat.eqb_refl, Hsel. cbn [andb negb].
    destruct (length indentation) as [|n'] eqn:El; [lia|].
    rewrite <- El. reflexivity.
  - fold (indent_step (length (text_before_cursor c)) (length indentation)).
    fold removed.
    unfold removeSelectedText, setPosition, positionInBlock, hasSelection;
      cbn [block_text block_position position anchor].
    rewrite Hanchor.
    replace (Nat.min (position c - removed) (position c) - block_position c)
      with (col - removed) by lia.
    replace (Nat.max (position c - removed) (position c) - block_position c)
      with col by lia.
    repeat split; try lia.
    + rewrite length_app, length_firstn, length_skipn. lia.
    + now rewrite Nat.eqb_refl.
Qed.

Lemma smart_backspace_removes_indent_step_witness :
  exists c',
    __smart_backspace (lit "    ")
      {| block_text := lit "      x"; block_position := 10;
         position := 16; anchor := 16 |} = Some (true, c')
    /\ block_text c' = lit "    x"
    /\ positionInBlock c' = 4.
Proof.
  destruct (smart_backspace_removes_indent_step (lit "    ")
              {| block_text := lit "      x"; block_position := 10;
                 position := 16; anchor := 16 |})
    as (c' & Hrun & _ & Htext & _ & Hpos & _).
  - unfold in_block; simpl; lia.
  - discriminate.
  - reflexivity.
  - reflexivity.
  - reflexivity.
  - exists c'. repeat split; assumption.
Defined.

(** Six leading spaces under a unit of four become four, and four become
    none. *)
Example smart_backspace_six_then_four :
  __smart_backspace (lit "    ")
    {| block_text := lit "      x"; block_position := 0;
       position := 6; anchor := 6 |}
  = Some (true, {| block_text := lit "    x"; block_position := 0;
                   position := 4; anchor := 4 |})
  /\ __smart_backspace (lit "    ")
       {| block_text := lit "    x"; block_position := 0;
          position := 4; anchor := 4 |}
     = Some (true, {| block_text := lit "x"; block_position := 0;
                      position := 0; anchor := 0 |}).
Proof. split; reflexivity. Qed.

(** C9 (amended).  Home at the first non-whitespace column goes to column
    0; at column 0, and at any column to the right of the first
    non-whitespace column, it goes to the first non-whitespace column; at a
    column strictly inside the leading whitespace the cursor stays where it
    is. *)
Theorem home_key_column (shift : bool) (c : QTextCursor) :
  in_block c ->
  positionInBlock (__manage_key_home shift c) =
  home_column (positionInBlock c) (line_indent (block_text c)).
Proof.
  intros [Hlo Hhi].
  unfold __manage_key_home, home_column, atBlockStart.
  set (indent := line_indent (block_text c)).
  destruct (Nat.eqb_spec (positionInBlock c) indent) as [He|Hne].
  - unfold moveStartOfBlock, setPosition, positionInBlock; simpl. lia.
  - destruct (Nat.eqb_spec (position c) (block_position c)) as [H0|H0];
      destruct (Nat.eqb_spec (positionInBlock c) 0) as [H1|H1];
      unfold positionInBlock in *; try lia.
    + unfold setPosition; simpl. lia.
    + destruct (Nat.ltb_spec indent (position c - block_position c)).
      * unfold moveStartOfBlock, setPosition; simpl. lia.
      * reflexivity.
Qed.

Lemma home_key_column_witness :
  positionInBlock
    (__manage_key_home false
       {| block_text := lit "    x = 1"; block_position := 20;
          position := 27; anchor := 27 |}) = 4.
Proof.
  rewrite home_key_column.
  - reflexivity.
  - unfold in_block; simpl; lia.
Defined.

(** C9 as stated fails inside the leading whitespace: from column 2 of a
    line indented by four the cursor does not move. *)
Lemma home_key_counterexample :
  let c := {| block_text := lit "    x"; block_position := 0;
              position := 2; anchor := 2 |} in
  positionInBlock c <> line_indent (block_text c)
  /\ positionInBlock c <> 0
  /\ positionInBlock (__manage_key_home false c) = 2
  /\ positionInBlock (__manage_key_home false c) <> line_indent (block_text c).
Proof.
  vm_compute. repeat split; discriminate.
Qed.

(** ** Comment / uncomment: the operation chosen *)

Section CommentScan.

Variable card : str.

Lemma scan_blocks_from (blocks : list str) :
  scan_blocks card blocks = scan_from card (scan_init card) blocks.
Proof. reflexivity. Qed.

Lemma scan_block_blank (st : scan_state) (t : str) :
  is_blank t = true -> scan_block card st t = st.
Proof. unfold scan_block. now intros ->. Qed.

(** The three ways a block that is not blank is counted. *)
Lemma scan_block_cases (st : scan_state) (t : str) :
  is_blank t = false ->
  let st' := scan_block card st t in
  min_indent st' = Z.min (Z.of_nat (line_indent t)) (min_indent st)
  /\ comment st' = negb (is_commented card t)
  /\ lines_commented st' =
       (if is_commented card t then S (lines_commented st)
        else lines_commented st)
  /\ lines_without_comment st' =
       (if is_commented card t then lines_without_comment st
        else S (lines_without_comment st))
  /\ card_lenght st' =
       (if startswith (lstrip t) card then card_lenght st
        else if startswith (lstrip t) (strip card)
             then (card_lenght st - 1)%Z
             else card_lenght st).
Proof.
  intros Hb. unfold scan_block, is_commented. rewrite Hb.
  destruct (startswith (lstrip t) card);
    [|destruct (startswith (lstrip t) (strip card))];
    cbn; repeat split.
Qed.

(** When no block is commented the flag stays up. *)
Lemma scan_flag_none_commented (blocks : list str) (st : scan_state) :
  Forall (fun t => is_blank t = false -> is_commented card t = false) blocks ->
  comment st = true ->
  comment (scan_from card st blocks) = true
  /\ lines_commented (scan_from card st blocks) = lines_commented st.
Proof.
  intros H; revert st; induction H as [|t blocks Ht _ IH]; intros st Hst.
  - now split.
  - cbn [scan_from fold_left]. fold (scan_from card (scan_block card st t) blocks).
    destruct (is_blank t) eqn:Hb.
    + rewrite scan_block_blank by assumption. now apply IH.
    + destruct (scan_block_cases st t Hb) as (_ & Hc & Hn & _).
      rewrite (Ht eq_refl) in Hc, Hn.
      destruct (IH (scan_block card st t) Hc) as [-> ->]. now split.
Qed.

(** When every block is commented nothing is counted as uncommented, and
    the flag is down as soon as one block is not blank. *)
Lemma scan_flag_all_commented (blocks : list str) (st : scan_state) :
  Forall (fun t => is_blank t = false -> is_commented card t = true) blocks ->
  comment (scan_from card st blocks) = comment st && forallb is_blank blocks
  /\ lines_without_comment (scan_from card st blocks) = lines_without_comment st.
Proof.
  intros H; revert st; induction H as [|t blocks Ht _ IH]; intros st.
  - cbn. now rewrite andb_true_r.
  - cbn [scan_from fold_left forallb].
    fold (scan_from card (scan_block card st t) blocks).
    destruct (is_blank t) eqn:Hb.
    + rewrite scan_block_blank by assumption. apply IH.
    + destruct (scan_block_cases st t Hb) as (_ & Hc & _ & Hn & _).
      rewrite (Ht eq_refl) in Hc, Hn.
      destruct (IH (scan_block card st t)) as [-> ->].
      rewrite Hc, Hn. cbn. now rewrite andb_false_r.
Qed.

Lemma scan_counts_grow (blocks : list str) (st : scan_state) :
  (lines_commented st <= lines_commented (scan_from card st blocks))%nat
  /\ (lines_without_comment st
      <= lines_without_comment (scan_from card st blocks))%nat.
Proof.
  revert st; induction blocks as [|t blocks IH]; intros st; [now split|].
  cbn [scan_from fold_left]. fold (scan_from card (scan_block card st t) blocks).
  destruct (IH (scan_block card st t)) as [H1 H2].
  destruct (is_blank t) eqn:Hb.
  - now rewrite scan_block_blank in * by assumption.
  - destruct (scan_block_cases st t Hb) as (_ & _ & Hc & Hn & _).
    destruct (is_commented card t); rewrite Hc in H1; rewrite Hn in H2; lia.
Qed.

Lemma scan_counts_commented (blocks : list str) (st : scan_state) :
  Exists (fun t => is_blank t = false /\ is_commented card t = true) blocks ->
  (lines_commented st < lines_commented (scan_from card st blocks))%nat.
Proof.
  intros H; revert st; induction H as [t blocks [Hb Hc]|t blocks _ IH];
    intros st; cbn [scan_from fold_left];
    fold (scan_from card (scan_block card st t) blocks).
  - destruct (scan_counts_grow blocks (scan_block card st t)) as [H1 _].
    destruct (scan_block_cases st t Hb) as (_ & _ & Hn & _).
    rewrite Hc in Hn. lia.
  - specialize (IH (scan_block card st t)).
    destruct (scan_counts_grow [t] st) as [H1 _]. cbn in H1. lia.
Qed.

Lemma scan_counts_uncommented (blocks : list str) (st : scan_state) :
  Exists (fun t => is_blank t = false /\ is_commented card t = false) blocks ->
  (lines_without_comment st
   < lines_without_comment (scan_from card st blocks))%nat.
Proof.
  intros H; revert st; induction H as [t blocks [Hb Hc]|t blocks _ IH];
    intros st; cbn [scan_from fold_left];
    fold (scan_from card (scan_block card st t) blocks).
  - destruct (scan_counts_grow blocks (scan_block card st t)) as [_ H1].
    destruct (scan_block_cases st t Hb) as (_ & _ & _ & Hn & _).
    rewrite Hc in Hn. lia.
  - specialize (IH (scan_block card st t)).
    destruct (scan_counts_grow [t] st) as [_ H1]. cbn in H1. lia.
Qed.

End CommentScan.

Lemma operation_none_commented (card : str) (blocks : list str) :
  Forall (fun t => is_blank t = false -> is_commented card t = false) blocks ->
  operation card blocks = true.
Proof.
  intros Hnone. unfold operation. rewrite scan_blocks_from.
  destruct (scan_flag_none_commented card blocks (scan_init card) Hnone eq_refl)
    as [Hflag Hcount].
  rewrite Hflag, Hcount. reflexivity.
Qed.

Lemma operation_all_commented (card : str) (blocks : list str) :
  Exists (fun t => is_blank t = false) blocks ->
  Forall (fun t => is_blank t = false -> is_commented card t = true) blocks ->
  operation card blocks = false.
Proof.
  intros Hex Hall. unfold operation. rewrite scan_blocks_from.
  destruct (scan_flag_all_commented card blocks (scan_init card) Hall)
    as [Hflag Hwithout].
  rewrite Hflag, Hwithout. cbn [scan_init lines_without_comment comment].
  rewrite Nat.add_0_r, Nat.eqb_refl, andb_false_r. cbn [andb].
  apply Exists_exists in Hex as (t & Hin & Hb).
  destruct (forallb is_blank blocks) eqn:E; [|reflexivity].
  rewrite forallb_forall in E. specialize (E t Hin). congruence.
Qed.

(** C2.  When every block that is not blank is commented (and there is
    one), the operation is to uncomment; when none is, it is to comment; and
    when some are and some are not, whichever the majority, it is to
    comment. *)
Theorem comment_operation_decision (card : str) (blocks : list str) :
  (Exists (fun t => is_blank t = false) blocks ->
   Forall (fun t => is_blank t = false -> is_commented card t = true) blocks ->
   operation card blocks = false)
  /\ (Forall (fun t => is_blank t = false -> is_commented card t = false) blocks ->
      operation card blocks = true)
  /\ (Exists (fun t => is_blank t = false /\ is_commented card t = true) blocks ->
      Exists (fun t => is_blank t = false /\ is_commented card t = false) blocks ->
      operation card blocks = true).
Proof.
  split; [|split].
  - apply operation_all_commented.
  - apply operation_none_commented.
  - intros Hc Hu. unfold operation. rewrite scan_blocks_from.
    pose proof (scan_counts_commented card blocks (scan_init card) Hc) as H1.
    pose proof (scan_counts_uncommented card blocks (scan_init card) Hu) as H2.
    cbn [scan_init lines_commented lines_without_comment] in H1, H2.
    set (st := scan_from card (scan_init card) blocks) in *.
    destruct (Nat.ltb_spec 0 (lines_commented st)); [|lia].
    destruct (Nat.eqb_spec (lines_commented st)
                (lines_commented st + lines_without_comment st));
      [lia|reflexivity].
Qed.

Lemma comment_operation_decision_witness :
  operation (lit "#") [lit "#a"; lit ""; lit "  # b"] = false
  /\ operation (lit "#") [lit "a"; lit ""; lit "  b"] = true
  /\ operation (lit "#") [lit "#a"; lit "#b"; lit "c"] = true.
Proof.
  destruct (comment_operation_decision (lit "#") [lit "#a"; lit ""; lit "  # b"])
    as (H1 & _ & _).
  destruct (comment_operation_decision (lit "#") [lit "a"; lit ""; lit "  b"])
    as (_ & H2 & _).
  destruct (comment_operation_decision (lit "#") [lit "#a"; lit "#b"; lit "c"])
    as (_ & _ & H3).
  split; [|split].
  - apply H1.
    + apply Exists_cons_hd. reflexivity.
    + repeat constructor; intros H; first [reflexivity | discriminate H].
  - apply H2. repeat constructor; intros _; reflexivity.
  - apply H3.
    + apply Exists_cons_hd. split; reflexivity.
    + apply Exists_cons_tl, Exists_cons_tl, Exists_cons_hd. split; reflexivity.
Defined.

(** ** Comment / uncomment: the edit *)

Lemma lstrip_length (t : str) : length (lstrip t) <= length t.
Proof.
  induction t as [|c t IH]; simpl; [lia|].
  destruct (isspace c); simpl; lia.
Qed.

Lemma line_indent_space (c : ascii) (t : str) :
  isspace c = true -> line_indent (c :: t) = S (line_indent t).
Proof.
  intros Hc. unfold line_indent. cbn [lstrip length]. rewrite Hc.
  pose proof (lstrip_length t). lia.
Qed.

Lemma line_indent_nonspace (c : ascii) (t : str) :
  isspace c = false -> line_indent (c :: t) = 0.
Proof.
  intros Hc. unfold line_indent. cbn [lstrip length]. rewrite Hc.
  cbn [length]. lia.
Qed.

(** A line is its indent followed by its stripped text. *)
Lemma lstrip_split (t : str) :
  t = firstn (line_indent t) t ++ lstrip t
  /\ Forall (fun c => isspace c = true) (firstn (line_indent t) t).
Proof.
  induction t as [|c t [IH1 IH2]]; [now split|].
  destruct (isspace c) eqn:Hc.
  - rewrite line_indent_space by assumption. simpl. rewrite Hc. split.
    + now rewrite <- IH1.
    + now constructor.
  - rewrite line_indent_nonspace by assumption. simpl. rewrite Hc.
    now split.
Qed.

Lemma lstrip_spaces_app (ws s : str) :
  Forall (fun c => isspace c = true) ws -> lstrip (ws ++ s) = lstrip s.
Proof.
  induction 1 as [|c ws Hc _ IH]; simpl; [reflexivity|]. now rewrite Hc.
Qed.

Lemma lstrip_fixed_app (card x : str) :
  card <> [] -> lstrip card = card -> lstrip (card ++ x) = card ++ x.
Proof.
  destruct card as [|c card]; [congruence|]. intros _ H. simpl in *.
  destruct (isspace c); [|reflexivity].
  pose proof (lstrip_length card) as Hl. rewrite H in Hl. simpl in Hl. lia.
Qed.

Lemma Forall_prefix (A : Type) (P : A -> Prop) (n : nat) (l : list A) :
  Forall P l -> Forall P (firstn n l).
Proof.
  intros H; revert n; induction H as [|x l Hx _ IH]; intros [|n]; simpl;
    constructor; auto.
Qed.

Section InsertMarker.

Variables (card : str) (m : nat).
Hypothesis card_nonempty : card <> [].
Hypothesis card_head : lstrip card = card.

Lemma lstrip_inserted (t : str) :
  m <= line_indent t -> lstrip (inserted card m t) = card ++ skipn m t.
Proof.
  intros Hm. unfold inserted.
  destruct (lstrip_split t) as [_ Hws].
  rewrite lstrip_spaces_app.
  - now apply lstrip_fixed_app.
  - replace (firstn m t) with (firstn m (firstn (line_indent t) t)).
    + now apply Forall_prefix.
    + rewrite firstn_firstn. f_equal. lia.
Qed.

Lemma length_inserted (t : str) :
  length (inserted card m t) = length t + length card.
Proof.
  unfold inserted. rewrite !length_app, length_firstn, length_skipn. lia.
Qed.

Lemma line_indent_inserted (t : str) :
  m <= line_indent t -> line_indent (inserted card m t) = m.
Proof.
  intros Hm. pose proof (line_indent_le t).
  unfold line_indent at 1.
  rewrite lstrip_inserted, length_inserted, length_app, length_skipn by assumption.
  lia.
Qed.

Lemma is_blank_inserted (t : str) :
  m <= line_indent t -> is_blank (inserted card m t) = false.
Proof.
  intros Hm. unfold is_blank. rewrite lstrip_inserted by assumption.
  destruct card; [congruence|reflexivity].
Qed.

Lemma startswith_inserted (t : str) :
  m <= line_indent t -> startswith (lstrip (inserted card m t)) card = true.
Proof.
  intros Hm. rewrite lstrip_inserted by assumption. apply startswith_app.
Qed.

(** Taking the marker out again. *)
Lemma remove_inserted (t : str) :
  m <= line_indent t ->
  firstn m (inserted card m t) ++ skipn (m + length card) (inserted card m t) = t.
Proof.
  intros Hm. pose proof (line_indent_le t).
  unfold inserted.
  assert (Hl : length (firstn m t) = m) by (rewrite length_firstn; lia).
  rewrite firstn_app, Hl, Nat.sub_diag, firstn_O, app_nil_r.
  rewrite firstn_all2 by lia.
  rewrite skipn_app, Hl.
  rewrite (skipn_all2 (firstn m t)) by lia.
  replace (m + length card - m) with (length card) by lia.
  rewrite skipn_app, skipn_all, Nat.sub_diag. cbn [skipn app].
  apply firstn_skipn.
Qed.

End InsertMarker.

Lemma scan_min_indent (card : str) (blocks : list str) (st : scan_state) :
  min_indent (scan_from card st blocks) =
  match shared_indent_opt blocks with
  | Some m => Z.min (Z.of_nat m) (min_indent st)
  | None => min_indent st
  end.
Proof.
  revert st; induction blocks as [|t blocks IH]; intros st; [reflexivity|].
  cbn [scan_from fold_left shared_indent_opt fold_right].
  fold (scan_from card (scan_block card st t) blocks).
  fold (shared_indent_opt blocks).
  rewrite IH. destruct (is_blank t) eqn:Hb.
  - now rewrite scan_block_blank.
  - destruct (scan_block_cases card st t Hb) as (-> & _).
    destruct (shared_indent_opt blocks) as [m|]; [|reflexivity].
    rewrite Nat2Z.inj_min. lia.
Qed.

Lemma scan_card_lenght_exact (card : str) (blocks : list str) (st : scan_state) :
  Forall (fun t => is_blank t = false -> startswith (lstrip t) card = true)
         blocks ->
  card_lenght (scan_from card st blocks) = card_lenght st.
Proof.
  intros H; revert st; induction H as [|t blocks Ht _ IH]; intros st;
    [reflexivity|].
  cbn [scan_from fold_left]. fold (scan_from card (scan_block card st t) blocks).
  rewrite IH. destruct (is_blank t) eqn:Hb.
  - now rewrite scan_block_blank.
  - destruct (scan_block_cases card st t Hb) as (_ & _ & _ & _ & ->).
    now rewrite (Ht eq_refl).
Qed.

Lemma shared_indent_opt_le (blocks : list str) (t : str) (m : nat) :
  shared_indent_opt blocks = Some m ->
  In t blocks -> is_blank t = false -> m <= line_indent t.
Proof.
  revert m; induction blocks as [|u blocks IH]; intros m Hm Hin Hb;
    [destruct Hin|].
  cbn [shared_indent_opt fold_right] in Hm. fold (shared_indent_opt blocks) in Hm.
  destruct Hin as [->|Hin].
  - rewrite Hb in Hm.
    destruct (shared_indent_opt blocks); inversion Hm; lia.
  - destruct (is_blank u); [now apply IH|].
    destruct (shared_indent_opt blocks) as [m'|] eqn:E.
    + inversion Hm. specialize (IH m' eq_refl Hin Hb). lia.
    + clear Hm. exfalso. clear IH.
      induction blocks as [|v blocks IH]; [destruct Hin|].
      cbn [shared_indent_opt fold_right] in E.
      fold (shared_indent_opt blocks) in E.
      destruct Hin as [->|Hin].
      * rewrite Hb in E. destruct (shared_indent_opt blocks); discriminate.
      * destruct (is_blank v); [now apply IH|].
        destruct (shared_indent_opt blocks); discriminate.
Qed.

Lemma shared_indent_opt_const (blocks : list str) (m : nat) :
  (forall t, In t blocks -> is_blank t = false -> line_indent t = m) ->
  shared_indent_opt blocks = if forallb is_blank blocks then None else Some m.
Proof.
  induction blocks as [|t blocks IH]; intros H; [reflexivity|].
  cbn [shared_indent_opt fold_right forallb]. fold (shared_indent_opt blocks).
  rewrite IH by (intros u Hu; apply H; now right).
  destruct (is_blank t) eqn:Hb; cbn [andb]; [reflexivity|].
  rewrite (H t (or_introl eq_refl) Hb).
  destruct (forallb is_blank blocks); [reflexivity|].
  now rewrite Nat.min_id.
Qed.

Lemma edit_blocks_map (card : str) (comment : bool) (mi cl : Z)
    (f : str -> str) (blocks : list str) :
  (forall t, In t blocks -> edit_block card comment mi cl t = Some (f t)) ->
  edit_blocks card comment mi cl blocks = Some (map f blocks).
Proof.
  induction blocks as [|t blocks IH]; intros H; [reflexivity|].
  cbn [edit_blocks map].
  rewrite (H t (or_introl eq_refl)), IH; [reflexivity|].
  intros u Hu. apply H. now right.
Qed.

Lemma edit_blocks_unmap (card : str) (comment : bool) (mi cl : Z)
    (f : str -> str) (blocks : list str) :
  (forall t, In t blocks -> edit_block card comment mi cl (f t) = Some t) ->
  edit_blocks card comment mi cl (map f blocks) = Some blocks.
Proof.
  induction blocks as [|t blocks IH]; intros H; [reflexivity|].
  cbn [edit_blocks map].
  rewrite (H t (or_introl eq_refl)), IH; [reflexivity|].
  intros u Hu. apply H. now right.
Qed.

Lemma edit_blocks_blank (card : str) (comment : bool) (mi cl : Z)
    (blocks : list str) :
  forallb is_blank blocks = true ->
  edit_blocks card comment mi cl blocks = Some blocks.
Proof.
  intros H. rewrite <- (map_id blocks) at 2.
  apply edit_blocks_map with (f := fun t => t). intros t Ht.
  rewrite forallb_forall in H. unfold edit_block. now rewrite (H t Ht).
Qed.

Lemma shared_indent_opt_some (blocks : list str) :
  forallb is_blank blocks = false ->
  exists m, shared_indent_opt blocks = Some m.
Proof.
  induction blocks as [|t blocks IH]; [discriminate|].
  cbn [forallb shared_indent_opt fold_right]. fold (shared_indent_opt blocks).
  destruct (is_blank t); cbn [andb]; [exact IH|]. intros _.
  destruct (shared_indent_opt blocks); eauto.
Qed.

Lemma forallb_false_exists (A : Type) (f : A -> bool) (l : list A) :
  forallb f l = false -> exists x, In x l /\ f x = false.
Proof.
  induction l as [|x l IH]; [discriminate|]. cbn [forallb].
  destruct (f x) eqn:E; cbn [andb].
  - intros H. destruct (IH H) as (y & Hy & Hf). exists y. split; [now right|easy].
  - intros _. exists x. split; [now left|easy].
Qed.

(** C4.  On blocks none of which is commented, the toggle puts the marker
    at the least indent of the blocks that are not blank, in each of them,
    and a second toggle on the same blocks gives back the original text.
    The marker is not empty and does not start with whitespace, and no line
    is longer than [sys.maxsize]. *)
Theorem comment_then_uncomment_roundtrip (card : str) (blocks : list str) :
  card <> [] ->
  lstrip card = card ->
  Forall (fun t => (Z.of_nat (length t) <= sys_maxsize)%Z) blocks ->
  Forall (fun t => is_blank t = false -> is_commented card t = false) blocks ->
  let commented := map (insert_marker card (shared_indent blocks)) blocks in
  comment_or_uncomment card blocks = Some commented
  /\ comment_or_uncomment card commented = Some blocks.
Proof.
  intros Hne Hhead Hfit Hnone commented.
  destruct (forallb is_blank blocks) eqn:Hall.
  - (* nothing but blank blocks: nothing is edited *)
    assert (Hid : commented = blocks).
    { subst commented. transitivity (map (fun t : str => t) blocks);
        [|apply map_id].
      apply map_ext_in. intros t Ht. rewrite forallb_forall in Hall.
      unfold insert_marker. now rewrite (Hall t Ht). }
    rewrite Hid. unfold comment_or_uncomment.
    split; now apply edit_blocks_blank.
  - destruct (shared_indent_opt_some blocks Hall) as [m Hm].
    assert (Hshared : shared_indent blocks = m)
      by (unfold shared_indent; now rewrite Hm).
    subst commented. rewrite Hshared.
    assert (Hle : forall t, In t blocks -> is_blank t = false ->
                            m <= line_indent t)
      by (intros t Ht Hb; now apply (shared_indent_opt_le blocks t m)).
    assert (Hbound : Z.min (Z.of_nat m) sys_maxsize = Z.of_nat m).
    { destruct (forallb_false_exists _ _ _ Hall) as (t & Ht & Hb).
      specialize (Hle t Ht Hb). pose proof (line_indent_le t).
      rewrite Forall_forall in Hfit. specialize (Hfit t Ht). lia. }
    split.
    + unfold comment_or_uncomment.
      rewrite (operation_none_commented card blocks Hnone).
      rewrite scan_blocks_from, scan_min_indent, Hm.
      cbn [scan_init min_indent]. rewrite Hbound.
      apply edit_blocks_map. intros t Ht.
      unfold edit_block, insert_marker.
      destruct (is_blank t) eqn:Hb; [reflexivity|].
      rewrite Nat2Z.id.
      specialize (Hle t Ht Hb). pose proof (line_indent_le t).
      destruct (Nat.ltb_spec (length t) m); [lia|reflexivity].
    + set (f := insert_marker card m).
      assert (Hblank : forall t, In t blocks -> is_blank (f t) = is_blank t).
      { intros t Ht. unfold f, insert_marker.
        destruct (is_blank t) eqn:Hb; [exact Hb|].
        apply is_blank_inserted; auto. }
      assert (Hall' : forallb is_blank (map f blocks) = false).
      { destruct (forallb_false_exists _ _ _ Hall) as (t & Ht & Hb).
        destruct (forallb is_blank (map f blocks)) eqn:E; [|reflexivity].
        rewrite forallb_forall in E.
        specialize (E (f t) (in_map f _ _ Ht)).
        rewrite Hblank in E by assumption. congruence. }
      assert (Hm' : shared_indent_opt (map f blocks) = Some m).
      { rewrite (shared_indent_opt_const (map f blocks) m), Hall'; [reflexivity|].
        intros t' Ht' Hb'. apply in_map_iff in Ht' as (t & <- & Ht).
        rewrite Hblank in Hb' by assumption.
        unfold f, insert_marker. rewrite Hb'.
        apply line_indent_inserted; auto. }
      assert (Hexact : Forall (fun t' => is_blank t' = false ->
                                 startswith (lstrip t') card = true)
                              (map f blocks)).
      { apply Forall_forall. intros t' Ht' Hb'.
        apply in_map_iff in Ht' as (t & <- & Ht).
        rewrite Hblank in Hb' by assumption.
        unfold f, insert_marker. rewrite Hb'.
        apply startswith_inserted; auto. }
      unfold comment_or_uncomment.
      rewrite operation_all_commented.
      * rewrite scan_blocks_from, scan_min_indent, Hm'.
        rewrite scan_card_lenght_exact by assumption.
        cbn [scan_init min_indent card_lenght]. rewrite Hbound.
        apply edit_blocks_unmap. intros t Ht.
        unfold edit_block. rewrite Hblank by assumption.
        unfold f, insert_marker.
        destruct (is_blank t) eqn:Hb; [reflexivity|].
        rewrite !Nat2Z.id, length_inserted.
        specialize (Hle t Ht Hb). pose proof (line_indent_le t).
        destruct (Nat.ltb_spec (length t + length card) m); [lia|].
        destruct (Nat.ltb_spec (length t + length card) (m + length card));
          [lia|].
        f_equal. now apply remove_inserted.
      * destruct (forallb_false_exists _ _ _ Hall') as (t' & Ht' & Hb').
        apply Exists_exists. eauto.
      * apply Forall_forall. intros t' Ht' Hb'.
        rewrite Forall_forall in Hexact. unfold is_commented.
        now rewrite (Hexact t' Ht' Hb').
Qed.

Lemma comment_then_uncomment_roundtrip_witness :
  let blocks := [lit "  def f():"; lit "      x = 1"; lit ""; lit "    return x"] in
  comment_or_uncomment (lit "#") blocks
    = Some [lit "  #def f():"; lit "  #    x = 1"; lit ""; lit "  #  return x"]
  /\ comment_or_uncomment (lit "#")
       [lit "  #def f():"; lit "  #    x = 1"; lit ""; lit "  #  return x"]
     = Some blocks.
Proof.
  apply (comment_then_uncomment_roundtrip (lit "#")
           [lit "  def f():"; lit "      x = 1"; lit ""; lit "    return x"]).
  - discriminate.
  - reflexivity.
  - repeat constructor; vm_compute; discriminate.
  - repeat constructor; intros _; reflexivity.
Defined.

(** ** Comment / uncomment: the stripped marker *)

Lemma scan_card_lenght (card : str) (blocks : list str) (st : scan_state) :
  card_lenght (scan_from card st blocks) =
  (card_lenght st - Z.of_nat (length (filter (is_variant card) blocks)))%Z.
Proof.
  revert st; induction blocks as [|t blocks IH]; intros st.
  - cbn. lia.
  - cbn [scan_from fold_left filter].
    fold (scan_from card (scan_block card st t) blocks).
    rewrite IH. unfold is_variant at 2.
    destruct (is_blank t) eqn:Hb.
    + rewrite scan_block_blank by assumption. reflexivity.
    + destruct (scan_block_cases card st t Hb) as (_ & _ & _ & _ & ->).
      destruct (startswith (lstrip t) card); cbn [negb andb]; [reflexivity|].
      destruct (startswith (lstrip t) (strip card)); cbn [length]; lia.
Qed.

(** C6 (the code as it is).  One length is kept for the whole range and
    goes down by one for every block that carries the stripped marker, so
    the number of characters removed from each block is the length of the
    marker less the number of such blocks.  With the marker ["# "] and the
    blocks ["#a"] and ["#b"] nothing is removed, and with ["# a"] and ["#b"]
    one character is removed from each. *)
Theorem uncomment_length_is_shared (card : str) (blocks : list str) :
  card_lenght (scan_blocks card blocks) =
    (Z.of_nat (length card)
     - Z.of_nat (length (filter (is_variant card) blocks)))%Z
  /\ operation (lit "# ") [lit "#a"; lit "#b"] = false
  /\ comment_or_uncomment (lit "# ") [lit "#a"; lit "#b"]
     = Some [lit "#a"; lit "#b"]
  /\ comment_or_uncomment (lit "# ") [lit "# a"; lit "#b"]
     = Some [lit " a"; lit "b"].
Proof.
  split; [|repeat split].
  rewrite scan_blocks_from, scan_card_lenght. reflexivity.
Qed.

(** ** Extra selections *)

Lemma lookup_setitem_same (d : odict) (k : kind) (l : loc) :
  lookup (setitem d k l) k = Some l.
Proof.
  induction d as [|[k' l'] d IH]; simpl.
  - now rewrite String.eqb_refl.
  - destruct (String.eqb k' k) eqn:E; simpl.
    + now rewrite String.eqb_refl.
    + now rewrite E.
Qed.

Lemma lookup_setitem_other (d : odict) (k k2 : kind) (l : loc) :
  k <> k2 -> lookup (setitem d k l) k2 = lookup d k2.
Proof.
  intros Hne. induction d as [|[k' l'] d IH]; simpl.
  - destruct (String.eqb_spec k k2); [contradiction|reflexivity].
  - destruct (String.eqb_spec k' k) as [->|Hk]; simpl.
    + destruct (String.eqb_spec k k2); [contradiction|reflexivity].
    + destruct (String.eqb k' k2); [reflexivity|exact IH].
Qed.

Lemma deref_alloc_old (h : store) (v : list ExtraSelection) (l : loc) :
  l < length h -> deref (h ++ [v]) l = deref h l.
Proof. intros H. unfold deref. now apply app_nth1. Qed.

Lemma deref_alloc_new (h : store) (v : list ExtraSelection) :
  deref (h ++ [v]) (length h) = v.
Proof. unfold deref. now rewrite nth_middle. Qed.

Lemma flatten_ext (h h' : store) (d : odict) :
  Forall (fun kl => deref h' (snd kl) = deref h (snd kl)) d ->
  flatten h' d = flatten h d.
Proof.
  unfold flatten. induction 1 as [|[k' l'] d Hkl _ IH]; [reflexivity|].
  cbn [flat_map fst snd] in *. now rewrite Hkl, IH.
Qed.

Lemma others_ext (h h' : store) (d : odict) (k : kind) :
  Forall (fun kl => deref h' (snd kl) = deref h (snd kl)) d ->
  others h' d k = others h d k.
Proof.
  unfold others. induction 1 as [|[k' l'] d Hkl _ IH]; [reflexivity|].
  cbn [flat_map fst snd] in *. rewrite IH.
  destruct (String.eqb k' k); [reflexivity|now rewrite Hkl].
Qed.

Lemma others_absent (h : store) (d : odict) (k : kind) :
  ~ In k (map fst d) -> others h d k = flatten h d.
Proof.
  induction d as [|[k' l'] d IH]; intros Hk; [reflexivity|].
  cbn [others flatten flat_map fst snd].
  fold (others h d k) (flatten h d).
  destruct (String.eqb_spec k' k) as [->|Hne].
  - exfalso. apply Hk. now left.
  - rewrite IH; [reflexivity|]. intros Hin. apply Hk. now right.
Qed.

Lemma others_setitem (h : store) (d : odict) (k : kind) (l : loc) :
  others h (setitem d k l) k = others h d k.
Proof.
  induction d as [|[k' l'] d IH]; cbn [setitem others flat_map fst snd].
  - now rewrite String.eqb_refl.
  - destruct (String.eqb_spec k' k) as [->|Hne];
      cbn [others flat_map fst snd].
    + now rewrite String.eqb_refl.
    + destruct (String.eqb_spec k' k); [contradiction|].
      fold (others h (setitem d k l) k) (others h d k). now rewrite IH.
Qed.

(** After [d[k] = l] the dictionary holds the list [l] and what the other
    categories held. *)
Lemma flatten_setitem (h : store) (d : odict) (k : kind) (l : loc) :
  NoDup (map fst d) ->
  Permutation (flatten h (setitem d k l)) (deref h l ++ others h d k).
Proof.
  induction d as [|[k' l'] d IH]; intros Hnd;
    cbn [setitem flatten others flat_map fst snd].
  - reflexivity.
  - inversion Hnd as [|? ? Hnotin Hnd']; subst.
    destruct (String.eqb_spec k' k) as [->|Hne];
      cbn [flatten flat_map fst snd].
    + fold (flatten h d) (others h d k).
      rewrite others_absent by assumption. reflexivity.
    + fold (flatten h (setitem d k l)) (others h d k).
      rewrite (IH Hnd'). apply Permutation_app_swap_app.
Qed.

Lemma insert_by_order_perm (x : ExtraSelection) (l : list ExtraSelection) :
  Permutation (insert_by_order x l) (x :: l).
Proof.
  induction l as [|y l IH]; simpl; [reflexivity|].
  destruct (order x <=? order y)%Z; [reflexivity|].
  rewrite IH. apply perm_swap.
Qed.

Lemma sorted_by_order_perm (l : list ExtraSelection) :
  Permutation (sorted_by_order l) l.
Proof.
  induction l as [|x l IH]; simpl; [reflexivity|].
  rewrite insert_by_order_perm. now constructor.
Qed.

Lemma setitem_keys (d : odict) (k : kind) (l : loc) :
  NoDup (map fst d) -> NoDup (map fst (setitem d k l))
  /\ forall k', In k' (map fst (setitem d k l)) <-> k' = k \/ In k' (map fst d).
Proof.
  induction d as [|[k' l'] d IH]; intros Hnd; cbn [setitem map fst].
  - split; [repeat constructor; auto|]. intros k0; simpl. intuition.
  - inversion Hnd as [|? ? Hnotin Hnd']; subst.
    destruct (String.eqb_spec k' k) as [->|Hne]; cbn [map fst].
    + split; [exact Hnd|]. intros k0; simpl. intuition.
    + destruct (IH Hnd') as [IH1 IH2]. split.
      * constructor; [|exact IH1]. rewrite IH2. intuition.
      * intros k0; simpl. rewrite IH2. intuition.
Qed.

Lemma setitem_locs (d : odict) (k : kind) (l : loc) (P : loc -> Prop) :
  P l -> Forall (fun kl => P (snd kl)) d ->
  Forall (fun kl => P (snd kl)) (setitem d k l).
Proof.
  intros Hl. induction 1 as [|[k' l'] d Hkl Hd IH]; cbn [setitem].
  - now repeat constructor.
  - destruct (String.eqb k' k); constructor; cbn [snd] in *; auto.
Qed.

(** What one [add] does. *)
Lemma add_spec (h : store) (m : ExtraSelectionManager) (k : kind)
    (a : selection_arg) :
  well_formed h m -> arg_ok h a ->
  let h' := fst (add h m k a) in
  let m' := snd (add h m k a) in
  well_formed h' m'
  /\ (forall l, l < length h -> l < length h' /\ deref h' l = deref h l)
  /\ get h' m' k = arg_value h a
  /\ (forall k2, k <> k2 -> get h' m' k2 = get h m k2)
  /\ others h' (selections m') k = others h (selections m) k
  /\ Permutation (rendered m') (arg_value h a ++ others h (selections m) k).
Proof.
  intros [Hnd Hlocs] Ha.
  destruct a as [l|sel]; unfold add; cbn [alloc fst snd arg_value arg_ok] in *.
  - (* a list object: the store is as it was *)
    unfold get, update, well_formed; cbn [selections rendered].
    repeat split.
    + now apply setitem_keys.
    + now apply (setitem_locs _ _ _ (fun l => l < length h)).
    + assumption.
    + now rewrite lookup_setitem_same.
    + intros k2 Hk2. now rewrite lookup_setitem_other.
    + apply others_setitem.
    + rewrite sorted_by_order_perm. now apply flatten_setitem.
  - (* one selection: a new list object holds it *)
    assert (Hold : forall l, l < length h ->
                   l < length (h ++ [[sel]])
                   /\ deref (h ++ [[sel]]) l = deref h l).
    { intros l Hl. split; [rewrite length_app; simpl; lia|].
      now apply deref_alloc_old. }
    assert (Hext : Forall (fun kl => deref (h ++ [[sel]]) (snd kl)
                                     = deref h (snd kl)) (selections m)).
    { eapply Forall_impl; [|exact Hlocs]. intros kl Hkl. now apply Hold. }
    unfold get, update, well_formed; cbn [selections rendered].
    repeat split.
    + now apply setitem_keys.
    + apply (setitem_locs _ _ _ (fun l => l < length (h ++ [[sel]])));
        [rewrite length_app; simpl; lia|].
      eapply Forall_impl; [|exact Hlocs]. intros kl Hkl. now apply Hold.
    + now apply Hold.
    + now apply Hold.
    + rewrite lookup_setitem_same. apply deref_alloc_new.
    + intros k2 Hk2. rewrite lookup_setitem_other by assumption.
      destruct (lookup (selections m) k2) as [l|] eqn:E; [|reflexivity].
      apply Hold.
      clear - E Hlocs. induction Hlocs as [|[k' l'] d Hkl _ IH]; [discriminate|].
      simpl in E. destruct (String.eqb k' k2); [inversion E; subst; exact Hkl|auto].
    + rewrite others_setitem. now apply others_ext.
    + rewrite sorted_by_order_perm, flatten_setitem by assumption.
      rewrite deref_alloc_new. apply Permutation_app_head.
      now rewrite (others_ext h) by assumption.
Qed.

(** C8.  After [add(k1, S1)] and then [add(k1, S2)] the category [k1] holds
    [S2] (a single selection as a list of one), any other category [k2]
    holds what it held before the second [add], and what is handed to the
    editor is [S2] together with the selections of the other categories. *)
Theorem add_replaces_category
    (h : store) (m : ExtraSelectionManager) (k1 k2 : kind)
    (a1 a2 : selection_arg) :
  well_formed h m ->
  arg_ok h a1 ->
  arg_ok (fst (add h m k1 a1)) a2 ->
  k1 <> k2 ->
  let s1 := add h m k1 a1 in
  let s2 := add (fst s1) (snd s1) k1 a2 in
  get (fst s2) (snd s2) k1 = arg_value (fst s1) a2
  /\ get (fst s2) (snd s2) k2 = get (fst s1) (snd s1) k2
  /\ get (fst s2) (snd s2) k2 = get h m k2
  /\ Permutation (rendered (snd s2))
       (arg_value (fst s1) a2 ++ others h (selections m) k1).
Proof.
  intros Hwf Ha1 Ha2 Hne s1 s2.
  destruct (add_spec h m k1 a1 Hwf Ha1)
    as (Hwf1 & _ & _ & Hframe1 & Hothers1 & _).
  fold s1 in Hwf1, Hframe1, Hothers1, Ha2.
  destruct (add_spec (fst s1) (snd s1) k1 a2 Hwf1 Ha2)
    as (_ & _ & Hget & Hframe2 & _ & Hperm).
  fold s2 in Hget, Hframe2, Hperm.
  repeat split.
  - exact Hget.
  - now apply Hframe2.
  - rewrite Hframe2 by assumption. now apply Hframe1.
  - now rewrite <- Hothers1.
Qed.

Lemma add_replaces_category_witness :
  let s0 := {| start_pos := 10; end_pos := 12; order := 1 |} in
  let s1 := {| start_pos := 0; end_pos := 3; order := 0 |} in
  let s2 := {| start_pos := 4; end_pos := 7; order := 2 |} in
  let m := {| selections := [("checker"%string, 0)]; rendered := [s0] |} in
  let r1 := add [[s0]] m "find"%string (ASingle s1) in
  let r2 := add (fst r1) (snd r1) "find"%string (ASingle s2) in
  get (fst r2) (snd r2) "find"%string = [s2]
  /\ get (fst r2) (snd r2) "checker"%string = [s0].
Proof.
  intros s0 s1 s2 m r1 r2.
  destruct (add_replaces_category [[s0]] m "find"%string "checker"%string
              (ASingle s1) (ASingle s2)) as (H1 & _ & H2 & _).
  - split; cbn; repeat constructor; auto.
  - exact I.
  - exact I.
  - discriminate.
  - split; [exact H1|exact H2].
Defined.

(** ** Linking a clone *)

Lemma link_fold_store (its : list (kind * loc)) (h : store)
    (clone : ExtraSelectionManager) :
  fst (fold_left
         (fun (acc : store * ExtraSelectionManager) (kl : kind * loc) =>
            add (fst acc) (snd acc) (fst kl) (AList (snd kl)))
         its (h, clone)) = h.
Proof.
  revert clone; induction its as [|[k l] its IH]; intros clone; [reflexivity|].
  cbn [fold_left fst snd add]. apply IH.
Qed.

Lemma link_fold_lookup (its : list (kind * loc)) (h : store)
    (clone : ExtraSelectionManager) (k : kind) :
  lookup
    (selections
       (snd (fold_left
               (fun (acc : store * ExtraSelectionManager) (kl : kind * loc) =>
                  add (fst acc) (snd acc) (fst kl) (AList (snd kl)))
               its (h, clone)))) k
  = match lookup (rev its) k with
    | Some l => Some l
    | None => lookup (selections clone) k
    end.
Proof.
  revert clone; induction its as [|[k' l'] its IH]; intros clone;
    [reflexivity|].
  cbn [fold_left fst snd add rev]. rewrite IH.
  cbn [update selections].
  assert (Happ : forall d, lookup (d ++ [(k', l')]) k =
                           match lookup d k with
                           | Some l => Some l
                           | None => if String.eqb k' k then Some l' else None
                           end).
  { induction d as [|[k0 l0] d IHd]; simpl; [reflexivity|].
    destruct (String.eqb k0 k); [reflexivity|exact IHd]. }
  rewrite Happ. destruct (lookup (rev its) k); [reflexivity|].
  destruct (String.eqb_spec k' k) as [->|Hne].
  - apply lookup_setitem_same.
  - now apply lookup_setitem_other.
Qed.

Lemma lookup_rev (d : odict) (k : kind) (l : loc) :
  NoDup (map fst d) -> lookup d k = Some l -> lookup (rev d) k = Some l.
Proof.
  induction d as [|[k' l'] d IH]; intros Hnd H; [discriminate|].
  inversion Hnd as [|? ? Hnotin Hnd']; subst.
  assert (Happ : forall d0, lookup (d0 ++ [(k', l')]) k =
                            match lookup d0 k with
                            | Some l0 => Some l0
                            | None => if String.eqb k' k then Some l' else None
                            end).
  { induction d0 as [|[k0 l0] d0 IHd]; simpl; [reflexivity|].
    destruct (String.eqb k0 k); [reflexivity|exact IHd]. }
  cbn [rev]. rewrite Happ. simpl in H.
  destruct (String.eqb_spec k' k) as [->|Hne].
  - destruct (lookup (rev d) k) as [l0|] eqn:E; [|exact H].
    exfalso. apply Hnotin.
    clear - E. rewrite in_map_iff.
    assert (Hin : forall d0, lookup d0 k = Some l0 -> In (k, l0) d0).
    { induction d0 as [|[k0 l1] d0 IHd]; simpl; [discriminate|].
      destruct (String.eqb_spec k0 k) as [->|]; intros H0;
        [inversion H0; now left|right; auto]. }
    exists (k, l0). split; [reflexivity|]. apply in_rev. now apply Hin.
  - now rewrite (IH Hnd' H).
Qed.

(** After [link] the clone names, for every category of the original, the
    very list object the original names, so emptying that list through the
    original empties it for the clone. *)
Lemma link_shares_lists (h : store) (self clone : ExtraSelectionManager)
    (k : kind) (l : loc) :
  NoDup (map fst (selections self)) ->
  lookup (selections self) k = Some l ->
  fst (link h self clone) = h
  /\ lookup (selections (snd (link h self clone))) k = Some l
  /\ get (fst (remove h self k)) (snd (link h self clone)) k = [].
Proof.
  intros Hnd Hk. unfold link, items.
  rewrite link_fold_store, link_fold_lookup.
  rewrite (lookup_rev _ _ _ Hnd Hk).
  repeat split.
  unfold get, remove. rewrite link_fold_lookup, (lookup_rev _ _ _ Hnd Hk), Hk.
  cbn [fst]. apply deref_clear.
Qed.

(** C10 (the code as it is).  The original holds one selection under
    ["find"]; after [link] the clone holds it too; after [remove("find")] on
    the original the clone holds none, although the list last handed to
    its editor still shows the selection; a replacement by [add] on the
    original leaves the clone's list as it was. *)
Theorem link_then_remove_on_original :
  let sel := {| start_pos := 0; end_pos := 3; order := 0 |} in
  let new := {| start_pos := 5; end_pos := 8; order := 0 |} in
  let original := add [] empty_manager "find"%string (ASingle sel) in
  let clone := link (fst original) (snd original) empty_manager in
  let removed := remove (fst clone) (snd original) "find"%string in
  let replaced := add (fst clone) (snd original) "find"%string (ASingle new) in
  get (fst clone) (snd clone) "find"%string = [sel]
  /\ get (fst removed) (snd removed) "find"%string = []
  /\ get (fst removed) (snd clone) "find"%string = []
  /\ rendered (snd clone) = [sel]
  /\ get (fst replaced) (snd replaced) "find"%string = [new]
  /\ get (fst replaced) (snd clone) "find"%string = [sel].
Proof.
  repeat split.
Qed.

(** * Further properties *)

(** ** The find engine *)

(** X1.  Whatever the query, the pattern built from it compiles, so the
    [except sre_constants.error] branch of [find_all_iter] is never taken:
    the matches are those of the compiled pattern. *)
Theorem find_pattern_always_compiles (expr : str) (wo : bool) :
  exists p,
    compile (find_pattern expr wo) = Some p
    /\ forall text, find_all_iter text (find_pattern expr wo) = finditer p text.
Proof.
  eexists. split; [apply compile_find_pattern|].
  intros text. unfold find_all_iter. now rewrite compile_find_pattern.
Qed.








Lemma filter_length_le (A : Type) (f g : A -> bool) (l : list A) :
  (forall x, f x = true -> g x = true) ->
  length (filter f l) <= length (filter g l) <= length l.
Proof.
  intros Hfg. induction l as [|x l IH]; cbn [filter length]; [lia|].
  destruct (f x) eqn:E.
  - rewrite (Hfg x E). cbn [length]. lia.
  - destruct (g x); cbn [length]; lia.
Qed.

Lemma current_index_literal
    (text : str) (position : nat) (expr : str) (cs : bool) :
  fst (_get_find_index_results text position expr cs false) =
  length (filter (ends_by position)
            (snd (_get_find_index_results text position expr cs false))).
Proof.
  unfold _get_find_index_results, find_all_iter, upto; cbn [fst snd].
  rewrite compile_find_pattern, finditer_literal_firstn.
  now destruct (finditer _ _).
Qed.

Lemma find_matches_position
    (text : str) (p p' : nat) (expr : str) (cs wo : bool) :
  snd (_get_find_index_results text p expr cs wo) =
  snd (_get_find_index_results text p' expr cs wo).
Proof. reflexivity. Qed.

(** X4.  With [whole_word] off the index shown in "N of M" never exceeds the
    number of matches, and it does not go down when the cursor moves
    forward. *)
Theorem current_index_bounded_monotone
    (text : str) (p p' : nat) (expr : str) (cs : bool) :
  p <= p' ->
  fst (_get_find_index_results text p expr cs false)
    <= fst (_get_find_index_results text p' expr cs false)
  /\ fst (_get_find_index_results text p' expr cs false)
     <= length (snd (_get_find_index_results text p' expr cs false)).
Proof.
  intros Hp. rewrite !current_index_literal.
  rewrite (find_matches_position text p p').
  split.
  - apply filter_length_le. unfold ends_by. intros sp H.
    apply Nat.leb_le in H. apply Nat.leb_le. lia.
  - apply (filter_length_le _ (ends_by p') (ends_by p')). auto.
Qed.

Lemma current_index_bounded_monotone_witness :
  fst (_get_find_index_results (lit "ab ab ab") 2 (lit "ab") true false)
    <= fst (_get_find_index_results (lit "ab ab ab") 5 (lit "ab") true false)
  /\ fst (_get_find_index_results (lit "ab ab ab") 5 (lit "ab") true false)
     <= length (snd (_get_find_index_results (lit "ab ab ab") 5 (lit "ab")
                       true false)).
Proof.
  apply (current_index_bounded_monotone (lit "ab ab ab") 2 5 (lit "ab") true).
  lia.
Defined.

(** X5.  A whole-word search for a query made of word characters returns
    every occurrence that has a word boundary at either end, and nothing
    else. *)
Theorem find_whole_word_of_word_characters
    (text : str) (position : nat) (expr : str) :
  Forall (fun c => is_word c = true) expr ->
  snd (_get_find_index_results text position expr true true)
  = whole_word_occurrences expr text.
Proof.
  intros Hw. rewrite find_matches.
  rewrite escape_plain
    by (eapply Forall_impl; [|exact Hw]; intros c; apply word_not_special).
  unfold leftmost_nonoverlapping.
  rewrite whole_word_occurrences_filter. unfold offsets.
  apply select_from_separated.
  - intros i j Hi Hij Hj.
    apply andb_true_iff in Hi as [Hocc _].
    unfold whole_word; cbn [fst snd].
    rewrite (no_boundary_inside expr text i j) by assumption.
    now rewrite andb_false_r.
  - intros j Hj1 Hj2. lia.
Qed.

Lemma find_whole_word_of_word_characters_witness :
  snd (_get_find_index_results (lit "cat category cat") 0 (lit "cat") true true)
  = whole_word_occurrences (lit "cat") (lit "cat category cat").
Proof.
  apply (find_whole_word_of_word_characters (lit "cat category cat") 0 (lit "cat")).
  repeat constructor.
Defined.

(** ** The extra selections: rendering order *)

Lemma insert_by_order_sorted (x : ExtraSelection) (l : list ExtraSelection) :
  StronglySorted by_order l -> StronglySorted by_order (insert_by_order x l).
Proof.
  induction 1 as [|y l Hsorted IH Hall]; cbn [insert_by_order].
  - repeat constructor.
  - destruct (Z.leb_spec (order x) (order y)) as [Hxy|Hyx].
    + constructor; [now constructor|].
      constructor; [exact Hxy|].
      eapply Forall_impl; [|exact Hall]. unfold by_order. intros z Hz. lia.
    + constructor; [exact IH|].
      rewrite insert_by_order_perm.
      constructor; [unfold by_order; lia|exact Hall].
Qed.

Lemma sorted_by_order_sorted (l : list ExtraSelection) :
  StronglySorted by_order (sorted_by_order l).
Proof.
  induction l as [|x l IH]; cbn; [constructor|].
  now apply insert_by_order_sorted.
Qed.

Lemma insert_by_order_filter (z : Z) (x : ExtraSelection)
    (l : list ExtraSelection) :
  filter (has_order z) (insert_by_order x l)
  = filter (has_order z) (x :: l).
Proof.
  induction l as [|y l IH]; cbn [insert_by_order]; [reflexivity|].
  destruct (Z.leb_spec (order x) (order y)) as [Hxy|Hyx]; [reflexivity|].
  cbn [filter] in *. rewrite IH. unfold has_order.
  destruct (Z.eqb_spec (order x) z), (Z.eqb_spec (order y) z);
    try reflexivity; lia.
Qed.

Lemma sorted_by_order_filter (z : Z) (l : list ExtraSelection) :
  filter (has_order z) (sorted_by_order l) = filter (has_order z) l.
Proof.
  induction l as [|x l IH]; [reflexivity|].
  cbn [sorted_by_order fold_right]. fold (sorted_by_order l).
  rewrite insert_by_order_filter. cbn [filter]. now rewrite IH.
Qed.

(** X6.  What [update] hands to the editor holds every stored selection
    once, in ascending [order]; selections of equal [order] keep the order
    they have in the dictionary and in their lists. *)
Theorem update_renders_sorted_stable (h : store) (m : ExtraSelectionManager) :
  let shown := rendered (update h m) in
  let stored := flatten h (selections m) in
  StronglySorted by_order shown
  /\ Permutation shown stored
  /\ forall z, filter (has_order z) shown = filter (has_order z) stored.
Proof.
  cbn [update rendered]. split; [|split].
  - apply sorted_by_order_sorted.
  - apply sorted_by_order_perm.
  - intros z. apply sorted_by_order_filter.
Qed.

(** ** The extra selections: [remove] *)

Lemma length_clear (h : store) (l : loc) : length (clear h l) = length h.
Proof.
  revert l; induction h as [|v h IH]; intros [|l]; simpl; auto.
Qed.

Lemma clear_clear (h : store) (l : loc) : clear (clear h l) l = clear h l.
Proof.
  revert l; induction h as [|v h IH]; intros [|l]; simpl; auto.
  now rewrite IH.
Qed.

Lemma deref_clear_other (h : store) (l l' : loc) :
  l <> l' -> deref (clear h l) l' = deref h l'.
Proof.
  unfold deref. revert l l'; induction h as [|v h IH]; intros [|l] [|l'] H;
    simpl; auto; congruence.
Qed.

Lemma deref_clear_nil (h : store) (l l' : loc) :
  deref h l' = [] -> deref (clear h l) l' = [].
Proof.
  intros H. destruct (Nat.eq_dec l l') as [->|Hne].
  - apply deref_clear.
  - now rewrite deref_clear_other.
Qed.

(** X7.  [remove] may be repeated: a second [remove] of the same category
    changes neither the stored lists nor what the editor shows. *)
Theorem remove_idempotent (h : store) (m : ExtraSelectionManager) (k : kind) :
  remove (fst (remove h m k)) (snd (remove h m k)) k = remove h m k.
Proof.
  unfold remove.
  destruct (lookup (selections m) k) as [l|] eqn:E;
    cbn [fst snd update selections]; rewrite E; [|reflexivity].
  rewrite clear_clear. reflexivity.
Qed.

Lemma lookup_In (d : odict) (k : kind) (l : loc) :
  lookup d k = Some l -> In (k, l) d.
Proof.
  induction d as [|[k' l'] d IH]; simpl; [discriminate|].
  destruct (String.eqb_spec k' k) as [->|Hne]; intros H.
  - inversion H. now left.
  - right. auto.
Qed.

Lemma NoDup_map_unique (A B : Type) (f : A -> B) (d : list A) (a b : A) :
  NoDup (map f d) -> In a d -> In b d -> f a = f b -> a = b.
Proof.
  induction d as [|x d IH]; intros Hnd Ha Hb Hf; [destruct Ha|].
  inversion Hnd as [|? ? Hnotin Hnd']; subst.
  destruct Ha as [->|Ha], Hb as [->|Hb]; auto.
  - exfalso. apply Hnotin. rewrite Hf. now apply in_map.
  - exfalso. apply Hnotin. rewrite <- Hf. now apply in_map.
Qed.

Lemma flatten_clear (h : store) (d : odict) (k : kind) (l : loc) :
  (forall k' l', In (k', l') d -> (k' = k <-> l' = l)) ->
  flatten (clear h l) d = others h d k.
Proof.
  unfold flatten, others.
  induction d as [|[k' l'] d IH]; intros H; [reflexivity|].
  cbn [flat_map fst snd]. rewrite IH by (intros; apply H; now right).
  f_equal. pose proof (H k' l' (or_introl eq_refl)) as [H1 H2].
  destruct (String.eqb_spec k' k) as [Hk|Hk].
  - rewrite (H1 Hk). apply deref_clear.
  - apply deref_clear_other. intros ->. now apply Hk, H2.
Qed.

(** X8.  When no two categories share a list, [remove(k)] empties [k],
    leaves the selections of every other category as they are, and the
    editor is handed the other categories' selections sorted by [order]. *)
Theorem remove_leaves_other_categories
    (h : store) (m : ExtraSelectionManager) (k : kind) (l : loc) :
  NoDup (map fst (selections m)) ->
  NoDup (map snd (selections m)) ->
  lookup (selections m) k = Some l ->
  let r := remove h m k in
  get (fst r) (snd r) k = []
  /\ (forall k2, k2 <> k -> get (fst r) (snd r) k2 = get h m k2)
  /\ rendered (snd r) = sorted_by_order (others h (selections m) k).
Proof.
  intros Hkeys Hlocs Hk r.
  assert (Hin : In (k, l) (selections m)) by now apply lookup_In.
  assert (Hiff : forall k' l', In (k', l') (selections m) ->
                               (k' = k <-> l' = l)).
  { intros k' l' Hin'. split; intros Heq.
    - assert (E : (k', l') = (k, l))
        by (apply (NoDup_map_unique _ _ fst (selections m)); auto).
      now inversion E.
    - assert (E : (k', l') = (k, l))
        by (apply (NoDup_map_unique _ _ snd (selections m)); auto).
      now inversion E. }
  split; [apply get_after_remove|]. subst r. unfold remove. rewrite Hk.
  cbn [fst snd update rendered]. split.
  - intros k2 Hk2. unfold get. cbn [update selections].
    destruct (lookup (selections m) k2) as [l2|] eqn:E2; [|reflexivity].
    apply deref_clear_other. intros ->.
    apply Hk2. apply (Hiff k2 l2); [now apply lookup_In|reflexivity].
  - f_equal. now apply flatten_clear.
Qed.

Lemma remove_leaves_other_categories_witness :
  let s0 := {| start_pos := 10; end_pos := 12; order := 1 |} in
  let s1 := {| start_pos := 0; end_pos := 3; order := 0 |} in
  let m := {| selections := [("find"%string, 0); ("checker"%string, 1)];
              rendered := [s1; s0] |} in
  let r := remove [[s1]; [s0]] m "find"%string in
  get (fst r) (snd r) "find"%string = []
  /\ get (fst r) (snd r) "checker"%string = [s0]
  /\ rendered (snd r) = [s0].
Proof.
  intros s0 s1 m r.
  destruct (remove_leaves_other_categories [[s1]; [s0]] m "find"%string 0)
    as (H1 & H2 & H3).
  - cbn. repeat constructor; cbn; intuition discriminate.
  - cbn. repeat constructor; cbn; intuition discriminate.
  - reflexivity.
  - split; [exact H1|]. split; [|exact H3].
    apply (H2 "checker"%string). discriminate.
Defined.

(** ** The extra selections: [remove_all] *)

Section RemoveAll.

Local Abbreviation step :=
  (fun (acc : store * ExtraSelectionManager) (k : kind) =>
     remove (fst acc) (snd acc) k).

Lemma remove_selections (h : store) (m : ExtraSelectionManager) (k : kind) :
  selections (snd (remove h m k)) = selections m.
Proof.
  unfold remove. now destruct (lookup (selections m) k).
Qed.

Lemma remove_keeps_empty (h : store) (m : ExtraSelectionManager) (k : kind)
    (l : loc) :
  deref h l = [] -> deref (fst (remove h m k)) l = [].
Proof.
  unfold remove. destruct (lookup (selections m) k); cbn [fst]; auto.
  apply deref_clear_nil.
Qed.

Lemma remove_fold_selections (ks : list kind) (h : store)
    (m : ExtraSelectionManager) :
  selections (snd (fold_left step ks (h, m))) = selections m.
Proof.
  revert h m; induction ks as [|k ks IH]; intros h m; [reflexivity|].
  cbn [fold_left fst snd].
  rewrite (surjective_pairing (remove h m k)), IH. apply remove_selections.
Qed.

Lemma remove_fold_keeps_empty (ks : list kind) (h : store)
    (m : ExtraSelectionManager) (l : loc) :
  deref h l = [] -> deref (fst (fold_left step ks (h, m))) l = [].
Proof.
  revert h m; induction ks as [|k ks IH]; intros h m H; [exact H|].
  cbn [fold_left fst snd].
  rewrite (surjective_pairing (remove h m k)). apply IH.
  now apply remove_keeps_empty.
Qed.

Lemma remove_fold_clears (ks : list kind) (h : store)
    (m : ExtraSelectionManager) (k : kind) (l : loc) :
  In k ks -> lookup (selections m) k = Some l ->
  deref (fst (fold_left step ks (h, m))) l = [].
Proof.
  revert h m; induction ks as [|k0 ks IH]; intros h m Hin Hk; [destruct Hin|].
  cbn [fold_left fst snd].
  rewrite (surjective_pairing (remove h m k0)).
  destruct (in_dec string_dec k ks) as [Hks|Hks].
  - apply IH; [exact Hks|]. now rewrite remove_selections.
  - destruct Hin as [->|Hin]; [|contradiction].
    apply remove_fold_keeps_empty.
    unfold remove. rewrite Hk. cbn [fst]. apply deref_clear.
Qed.

(** Each turn of the loop that finds its category hands the editor the
    selections as they are stored at that moment. *)
Lemma remove_fold_rendered (ks : list kind) (h : store)
    (m : ExtraSelectionManager) :
  (forall k, In k ks -> lookup (selections m) k <> None) ->
  let r := fold_left step ks (h, m) in
  rendered (snd r) =
  match ks with
  | [] => rendered m
  | _ :: _ => sorted_by_order (flatten (fst r) (selections m))
  end.
Proof.
  revert h m; induction ks as [|k ks IH]; intros h m Hks; [reflexivity|].
  cbn [fold_left fst snd].
  destruct ks as [|k1 ks].
  - cbn [fold_left]. unfold remove.
    destruct (lookup (selections m) k) eqn:E; [reflexivity|].
    exfalso. apply (Hks k); [now left|exact E].
  - rewrite (surjective_pairing (remove h m k)).
    rewrite IH
      by (intros k' Hk'; rewrite remove_selections; apply Hks; now right).
    now rewrite remove_selections.
Qed.

End RemoveAll.

Lemma lookup_None (d : odict) (k : kind) :
  lookup d k = None <-> ~ In k (map fst d).
Proof.
  induction d as [|[k' l'] d IH]; simpl; [tauto|].
  destruct (String.eqb_spec k' k) as [->|Hne].
  - split; [discriminate|]. intros H. exfalso. apply H. now left.
  - rewrite IH. tauto.
Qed.

Lemma flatten_empty (h : store) (d : odict) :
  (forall k l, In (k, l) d -> deref h l = []) -> flatten h d = [].
Proof.
  unfold flatten. induction d as [|[k l] d IH]; intros H; [reflexivity|].
  cbn [flat_map snd]. rewrite (H k l (or_introl eq_refl)), IH; [reflexivity|].
  intros k' l' Hin. apply (H k' l'). now right.
Qed.

Lemma In_lookup (d : odict) (k : kind) (l : loc) :
  NoDup (map fst d) -> In (k, l) d -> lookup d k = Some l.
Proof.
  induction d as [|[k' l'] d IH]; intros Hnd Hin; [destruct Hin|].
  inversion Hnd as [|? ? Hnotin Hnd']; subst. simpl.
  destruct Hin as [E|Hin].
  - inversion E; subst. now rewrite String.eqb_refl.
  - destruct (String.eqb_spec k' k) as [->|Hne]; [|auto].
    exfalso. apply Hnotin. now apply (in_map fst) in Hin.
Qed.

(** X9.  After [remove_all] every category is empty, the categories
    themselves are all still there, and, unless there was none, the editor
    is handed an empty list. *)
Theorem remove_all_empties_every_category
    (h : store) (m : ExtraSelectionManager) :
  NoDup (map fst (selections m)) ->
  let r := remove_all h m in
  (forall k, get (fst r) (snd r) k = [])
  /\ map fst (selections (snd r)) = map fst (selections m)
  /\ (selections m <> [] -> rendered (snd r) = []).
Proof.
  intros Hnd. unfold remove_all. cbn zeta.
  assert (Hclear : forall k l, lookup (selections m) k = Some l ->
            deref (fst (fold_left
                          (fun acc k0 => remove (fst acc) (snd acc) k0)
                          (map fst (selections m)) (h, m))) l = []).
  { intros k l Hk. apply (remove_fold_clears _ h m k l); [|exact Hk].
    apply lookup_In in Hk. now apply (in_map fst) in Hk. }
  assert (Hflat : flatten
            (fst (fold_left
                    (fun acc k0 => remove (fst acc) (snd acc) k0)
                    (map fst (selections m)) (h, m))) (selections m) = []).
  { apply flatten_empty. intros k l Hin.
    apply (Hclear k). now apply In_lookup. }
  split; [|split].
  - intros k. unfold get. rewrite remove_fold_selections.
    destruct (lookup (selections m) k) as [l|] eqn:E; [|reflexivity].
    now apply (Hclear k).
  - now rewrite remove_fold_selections.
  - intros Hne. rewrite remove_fold_rendered.
    + destruct (map fst (selections m)) as [|k0 ks] eqn:Ed.
      * destruct (selections m); [congruence|discriminate].
      * now rewrite Hflat.
    + intros k Hk Hnone. apply lookup_None in Hnone. contradiction.
Qed.

Lemma remove_all_empties_every_category_witness :
  let s0 := {| start_pos := 10; end_pos := 12; order := 1 |} in
  let s1 := {| start_pos := 0; end_pos := 3; order := 0 |} in
  let m := {| selections := [("find"%string, 0); ("checker"%string, 1)];
              rendered := [s1; s0] |} in
  let r := remove_all [[s1]; [s0]] m in
  get (fst r) (snd r) "find"%string = []
  /\ get (fst r) (snd r) "checker"%string = []
  /\ rendered (snd r) = [].
Proof.
  intros s0 s1 m r.
  destruct (remove_all_empties_every_category [[s1]; [s0]] m) as (H1 & _ & H3).
  - cbn. repeat constructor; cbn; intuition discriminate.
  - split; [apply H1|]. split; [apply H1|]. apply H3. discriminate.
Defined.

(** ** The extra selections: [link] *)

Lemma lookup_rev_none (d : odict) (k : kind) :
  lookup d k = None -> lookup (rev d) k = None.
Proof.
  rewrite !lookup_None, map_rev. intros H Hin. apply H.
  now apply in_rev.
Qed.

(** X10.  After [link] the clone holds, for every category of the original,
    the selections the original holds, and keeps its own under the other
    categories; the lists themselves are not changed. *)
Theorem link_copies_every_category
    (h : store) (self clone : ExtraSelectionManager) (k : kind) :
  NoDup (map fst (selections self)) ->
  let r := link h self clone in
  fst r = h
  /\ get (fst r) (snd r) k =
       match lookup (selections self) k with
       | Some _ => get h self k
       | None => get h clone k
       end.
Proof.
  intros Hnd. unfold link, items. cbn zeta.
  rewrite link_fold_store. split; [reflexivity|].
  unfold get. rewrite link_fold_lookup.
  destruct (lookup (selections self) k) as [l|] eqn:E.
  - now rewrite (lookup_rev _ _ _ Hnd E).
  - now rewrite (lookup_rev_none _ _ E).
Qed.

Lemma link_copies_every_category_witness :
  let s0 := {| start_pos := 10; end_pos := 12; order := 1 |} in
  let s1 := {| start_pos := 0; end_pos := 3; order := 0 |} in
  let self := {| selections := [("find"%string, 0)]; rendered := [s1] |} in
  let clone := {| selections := [("checker"%string, 1)]; rendered := [s0] |} in
  let r := link [[s1]; [s0]] self clone in
  get (fst r) (snd r) "find"%string = [s1]
  /\ get (fst r) (snd r) "checker"%string = [s0].
Proof.
  intros s0 s1 self clone r.
  assert (Hnd : NoDup (map fst (selections self)))
    by (cbn; repeat constructor; cbn; intuition discriminate).
  split.
  - apply (link_copies_every_category [[s1]; [s0]] self clone "find"%string Hnd).
  - apply (link_copies_every_category [[s1]; [s0]] self clone "checker"%string Hnd).
Defined.

(** ** Highlighting the occurrences and the results *)

Lemma remove_well_formed (h : store) (m : ExtraSelectionManager) (k : kind) :
  well_formed h m ->
  well_formed (fst (remove h m k)) (snd (remove h m k))
  /\ length (fst (remove h m k)) = length h.
Proof.
  intros [Hnd Hlocs]. unfold remove, well_formed.
  destruct (lookup (selections m) k) as [l|]; cbn [fst snd update selections].
  - rewrite length_clear. auto.
  - auto.
Qed.

Lemma alloc_well_formed (h : store) (m : ExtraSelectionManager)
    (v : list ExtraSelection) :
  well_formed h m ->
  well_formed (h ++ [v]) m
  /\ forall k, get (h ++ [v]) m k = get h m k.
Proof.
  intros [Hnd Hlocs]. split.
  - split; [exact Hnd|].
    eapply Forall_impl; [|exact Hlocs].
    intros kl Hkl. cbn beta in *. rewrite length_app. cbn [length]. lia.
  - intros k. unfold get.
    destruct (lookup (selections m) k) as [l|] eqn:E; [|reflexivity].
    apply deref_alloc_old. apply lookup_In in E.
    rewrite Forall_forall in Hlocs. exact (Hlocs _ E).
Qed.

(** Adding a list made for the purpose. *)
Lemma add_fresh_list (h : store) (m : ExtraSelectionManager) (k : kind)
    (v : list ExtraSelection) :
  well_formed h m ->
  let r := add (h ++ [v]) m k (AList (length h)) in
  well_formed (fst r) (snd r)
  /\ lookup (selections (snd r)) k = Some (length h)
  /\ fst r = h ++ [v]
  /\ get (fst r) (snd r) k = v
  /\ forall k2, k <> k2 -> get (fst r) (snd r) k2 = get h m k2.
Proof.
  intros Hwf r.
  destruct (alloc_well_formed h m v Hwf) as [Hwf' Hget].
  assert (Hok : arg_ok (h ++ [v]) (AList (length h)))
    by (cbn; rewrite length_app; simpl; lia).
  destruct (add_spec (h ++ [v]) m k (AList (length h)) Hwf' Hok)
    as (Hwf2 & _ & Hk & Hframe & _).
  fold r in Hwf2, Hk, Hframe.
  repeat split; try apply Hwf2.
  - subst r. unfold add. cbn [snd update selections].
    apply lookup_setitem_same.
  - rewrite Hk. cbn [arg_value]. apply deref_alloc_new.
  - intros k2 Hk2. rewrite Hframe by assumption. apply Hget.
Qed.

Lemma get_remove_other (h : store) (m : ExtraSelectionManager) (k k2 : kind) :
  NoDup (map fst (selections m)) ->
  NoDup (map snd (selections m)) ->
  k2 <> k ->
  get (fst (remove h m k)) (snd (remove h m k)) k2 = get h m k2.
Proof.
  intros Hkeys Hlocs Hk2. unfold remove, get.
  destruct (lookup (selections m) k) as [l|] eqn:E;
    cbn [fst snd update selections]; [|reflexivity].
  destruct (lookup (selections m) k2) as [l2|] eqn:E2; [|reflexivity].
  apply deref_clear_other. intros ->. apply Hk2.
  apply lookup_In in E, E2.
  assert (Heq : (k2, l2) = (k, l2))
    by (apply (NoDup_map_unique _ _ snd (selections m)); auto).
  now inversion Heq.
Qed.

Lemma get_remove_empty (h : store) (m : ExtraSelectionManager) (k k2 : kind) :
  get h m k2 = [] ->
  get (fst (remove h m k)) (snd (remove h m k)) k2 = [].
Proof.
  unfold remove, get.
  destruct (lookup (selections m) k) as [l|];
    cbn [fst snd update selections]; [|auto].
  destruct (lookup (selections m) k2) as [l2|]; [|reflexivity].
  apply deref_clear_nil.
Qed.

(** X11.  When a word is under the cursor and the ["find"] category is
    empty, [highlight_selected_word] stores under ["occurrences"] one
    selection for each of the first 500 whole-word matches of the word,
    case ignored, in text order, and no more than 500; when no two
    categories share a list the other categories keep what they hold. *)
Theorem highlight_selected_word_caps_at_500
    (h : store) (m : ExtraSelectionManager)
    (text : str) (position : nat) (word : str) :
  well_formed h m ->
  NoDup (map snd (selections m)) ->
  word <> [] ->
  get h m "find"%string = [] ->
  let r := highlight_selected_word h m text position word in
  let results := snd (_get_find_index_results text position word false true) in
  get (fst r) (snd r) "occurrences"%string
    = map new_selection (firstn 500 results)
  /\ length (get (fst r) (snd r) "occurrences"%string)
     = Nat.min 500 (length results)
  /\ forall k, k <> "occurrences"%string ->
       get (fst r) (snd r) k = get h m k.
Proof.
  intros Hwf Hshare Hword Hfind r results.
  destruct (remove_well_formed h m "occurrences"%string Hwf) as [Hwf1 _].
  pose proof (get_remove_empty h m "occurrences"%string "find"%string Hfind)
    as Hfind1.
  assert (Hr : r = add (fst (remove h m "occurrences"%string)
                        ++ [map new_selection (firstn 500 results)])
                       (snd (remove h m "occurrences"%string))
                       "occurrences"%string
                       (AList (length (fst (remove h m "occurrences"%string))))).
  { subst r. unfold highlight_selected_word.
    destruct (remove h m "occurrences"%string) as [h1 m1]. cbn [fst snd] in *.
    rewrite Hfind1. destruct word as [|c word]; [congruence|]. reflexivity. }
  destruct (add_fresh_list (fst (remove h m "occurrences"%string))
              (snd (remove h m "occurrences"%string)) "occurrences"%string
              (map new_selection (firstn 500 results)) Hwf1)
    as (_ & _ & _ & Hget & Hframe).
  rewrite <- Hr in Hget, Hframe.
  split; [exact Hget|]. split.
  - rewrite Hget, length_map, length_firstn. reflexivity.
  - intros k Hk. rewrite Hframe by congruence.
    destruct Hwf as [Hkeys _]. now apply get_remove_other.
Qed.

Lemma highlight_selected_word_caps_at_500_witness :
  let s0 := {| start_pos := 10; end_pos := 12; order := 1 |} in
  let m := {| selections := [("checker"%string, 0)]; rendered := [s0] |} in
  let r := highlight_selected_word [[s0]] m (lit "cat category cat") 0
             (lit "cat") in
  get (fst r) (snd r) "occurrences"%string
    = [new_selection (0, 3); new_selection (13, 16)]
  /\ get (fst r) (snd r) "checker"%string = [s0].
Proof.
  intros s0 m r.
  destruct (highlight_selected_word_caps_at_500 [[s0]] m
              (lit "cat category cat") 0 (lit "cat")) as (H1 & _ & H3).
  - split; cbn; repeat constructor; cbn; intuition discriminate.
  - cbn. repeat constructor; cbn; intuition discriminate.
  - discriminate.
  - reflexivity.
  - split; [exact H1|]. apply H3. discriminate.
Defined.

Lemma lookup_lt (h : store) (m : ExtraSelectionManager) (k : kind) (l : loc) :
  well_formed h m -> lookup (selections m) k = Some l -> l < length h.
Proof.
  intros [_ Hlocs] Hk. apply lookup_In in Hk.
  rewrite Forall_forall in Hlocs. exact (Hlocs _ Hk).
Qed.

(** X12.  A find with at least one result, highlighted, keeps the
    occurrences of the word under the cursor from being highlighted: after
    [highlight_found_results] a call of [highlight_selected_word] leaves
    ["occurrences"] empty and the ["find"] selections, one for each result,
    as they are. *)
Theorem find_overlay_suppresses_occurrences
    (h : store) (m : ExtraSelectionManager)
    (editor_text : str) (position : nat) (text : str) (cs wo : bool)
    (position' : nat) (word : str) :
  well_formed h m ->
  snd (_get_find_index_results editor_text position text cs wo) <> [] ->
  let found :=
    highlight_found_results h m editor_text position text cs wo true in
  let r :=
    highlight_selected_word (fst (snd found)) (snd (snd found))
      editor_text position' word in
  fst found =
    (fst (_get_find_index_results editor_text position text cs wo),
     length (snd (_get_find_index_results editor_text position text cs wo)))
  /\ get (fst r) (snd r) "occurrences"%string = []
  /\ get (fst r) (snd r) "find"%string
     = map new_selection
         (snd (_get_find_index_results editor_text position text cs wo)).
Proof.
  intros Hwf Hres found r.
  set (results := snd (_get_find_index_results editor_text position text cs wo))
    in *.
  assert (Hfound : found =
            ((fst (_get_find_index_results editor_text position text cs wo),
              length results),
             add (h ++ [map new_selection results]) m "find"%string
                 (AList (length h)))).
  { subst found results. unfold highlight_found_results.
    now destruct (_get_find_index_results editor_text position text cs wo). }
  destruct (add_fresh_list h m "find"%string (map new_selection results) Hwf)
    as (Hwf1 & Hloc & Hstore & Hget & _).
  set (s1 := add (h ++ [map new_selection results]) m "find"%string
                 (AList (length h))) in *.
  assert (Hs1 : snd found = s1) by now rewrite Hfound.
  split; [now rewrite Hfound|].
  subst r. rewrite Hs1.
  assert (Hkeep : get (fst (remove (fst s1) (snd s1) "occurrences"%string))
                      (snd (remove (fst s1) (snd s1) "occurrences"%string))
                      "find"%string = map new_selection results).
  { unfold remove, get.
    destruct (lookup (selections (snd s1)) "occurrences"%string) as [lo|] eqn:Eo;
      cbn [fst snd update selections]; rewrite Hloc.
    - rewrite deref_clear_other.
      + rewrite Hstore. apply deref_alloc_new.
      + intros ->.
        assert (Hlt : length h < length (fst s1)).
        { rewrite Hstore, length_app. cbn. lia. }
        (* the list of the occurrences was there before the results *)
        subst s1. unfold add in Eo. cbn [snd update selections] in Eo.
        rewrite lookup_setitem_other in Eo by discriminate.
        pose proof (lookup_lt h m _ _ Hwf Eo). lia.
    - rewrite Hstore. apply deref_alloc_new. }
  unfold highlight_selected_word.
  pose proof (get_after_remove (fst s1) (snd s1) "occurrences"%string) as Hocc.
  destruct (remove (fst s1) (snd s1) "occurrences"%string) as [h2 m2].
  cbn [fst snd] in *. rewrite Hkeep.
  destruct (map new_selection results) as [|x xs] eqn:Emap.
  - destruct results; [congruence|discriminate].
  - cbn [fst snd]. rewrite Hkeep. now split.
Qed.

Lemma find_overlay_suppresses_occurrences_witness :
  let found :=
    highlight_found_results [] empty_manager (lit "cat category cat") 0
      (lit "cat") true false true in
  let r :=
    highlight_selected_word (fst (snd found)) (snd (snd found))
      (lit "cat category cat") 1 (lit "cat") in
  fst found = (0, 3)
  /\ get (fst r) (snd r) "occurrences"%string = []
  /\ length (get (fst r) (snd r) "find"%string) = 3.
Proof.
  intros found r.
  destruct (find_overlay_suppresses_occurrences [] empty_manager
              (lit "cat category cat") 0 (lit "cat") true false 1 (lit "cat"))
    as (H1 & H2 & H3).
  - split; cbn; constructor.
  - discriminate.
  - split; [exact H1|]. split; [exact H2|]. fold found r in H3.
    now rewrite H3.
Defined.

(** ** The run cursor *)



(** ** Smart backspace and Home, again *)

Lemma lstrip_idempotent (t : str) : lstrip (lstrip t) = lstrip t.
Proof.
  induction t as [|c t IH]; [reflexivity|]. cbn [lstrip].
  destruct (isspace c) eqn:E; [exact IH|]. cbn [lstrip]. now rewrite E.
Qed.

Lemma skipn_line_indent (t : str) : skipn (line_indent t) t = lstrip t.
Proof.
  destruct (lstrip_split t) as [Hsplit _].
  pose proof (line_indent_le t) as Hle.
  rewrite Hsplit at 2.
  rewrite skipn_app, length_firstn.
  replace (Nat.min (line_indent t) (length t)) with (line_indent t) by lia.
  rewrite Nat.sub_diag, skipn_all2 by (rewrite length_firstn; lia).
  reflexivity.
Qed.

Lemma indent_step_stop (col n : nat) :
  n <> 0 -> n <= col -> (col - indent_step col n) mod n = 0.
Proof.
  intros Hn Hle. unfold indent_step.
  pose proof (Nat.div_mod_eq col n) as Hdiv.
  destruct (Nat.eqb_spec (col mod n) 0) as [H0|H0].
  - rewrite H0, Nat.add_0_r in Hdiv.
    assert (Hq : 1 <= col / n) by (destruct (col / n); [lia|lia]).
    replace (col - n) with ((col / n - 1) * n) by nia.
    apply Nat.Div0.mod_mul.
  - replace (col - col mod n) with (col / n * n) by lia.
    apply Nat.Div0.mod_mul.
Qed.

(** What an accepted smart backspace has tested and done. *)
Lemma smart_backspace_accepted (indentation : str) (c c' : QTextCursor) :
  __smart_backspace indentation c = Some (true, c') ->
  endswith (text_before_cursor c) indentation = true
  /\ line_indent (block_text c) = positionInBlock c
  /\ hasSelection c = false
  /\ indentation <> []
  /\ c' = removeSelectedText
            (setPosition c
               (position c
                - indent_step (length (text_before_cursor c))
                              (length indentation))
               KeepAnchor).
Proof.
  unfold __smart_backspace. fold (line_indent (block_text c)).
  destruct (endswith (text_before_cursor c) indentation) eqn:He;
    cbn [andb]; [|discriminate].
  destruct (Nat.eqb_spec (line_indent (block_text c)) (positionInBlock c))
    as [Hi|Hi]; cbn [andb]; [|discriminate].
  destruct (hasSelection c) eqn:Hs; cbn [negb]; [discriminate|].
  destruct indentation as [|a indentation]; cbn [length]; [discriminate|].
  intros H. inversion H. repeat split; auto. discriminate.
Qed.

(** X14.  An accepted smart backspace leaves the cursor on an indent stop,
    a column that is a multiple of the length of the indent string, and
    again at the first non-whitespace column of the line; the text of the
    line past its indent is untouched and nothing is selected. *)
Theorem smart_backspace_lands_on_indent_stop
    (indentation : str) (c c' : QTextCursor) :
  in_block c ->
  __smart_backspace indentation c = Some (true, c') ->
  positionInBlock c' mod length indentation = 0
  /\ line_indent (block_text c') = positionInBlock c'
  /\ lstrip (block_text c') = lstrip (block_text c)
  /\ in_block c'
  /\ hasSelection c' = false.
Proof.
  intros [Hlo Hhi] Hrun.
  destruct (smart_backspace_accepted indentation c c' Hrun)
    as (Hends & Hind & Hsel & Hne & ->).
  set (col := positionInBlock c) in *.
  set (n := length indentation).
  assert (Hcol : col <= length (block_text c))
    by (rewrite <- Hind; apply line_indent_le).
  assert (Hbefore : length (text_before_cursor c) = col).
  { unfold text_before_cursor, upto. rewrite length_firstn. fold col. lia. }
  assert (Hn : n <> 0) by (subst n; destruct indentation; [congruence|discriminate]).
  assert (Hle : n <= col)
    by (rewrite <- Hbefore; now apply endswith_length).
  rewrite Hbefore. fold n.
  set (r := indent_step col n).
  assert (Hr : 1 <= r <= n).
  { subst r. unfold indent_step.
    pose proof (Nat.mod_upper_bound col n Hn).
    destruct (Nat.eqb_spec (col mod n) 0); lia. }
  assert (Hanchor : anchor c = position c).
  { unfold hasSelection in Hsel. apply negb_false_iff in Hsel.
    apply Nat.eqb_eq in Hsel. congruence. }
  assert (Hpos : position c = block_position c + col)
    by (subst col; unfold positionInBlock; lia).
  unfold removeSelectedText, setPosition, positionInBlock, hasSelection,
    in_block; cbn [block_text block_position position anchor].
  rewrite Hanchor.
  replace (Nat.min (position c - r) (position c) - block_position c)
    with (col - r) by lia.
  replace (Nat.max (position c - r) (position c) - block_position c)
    with col by lia.
  replace (block_position c + (col - r) - block_position c)
    with (col - r) by lia.
  assert (Hskip : skipn col (block_text c) = lstrip (block_text c))
    by (rewrite <- Hind; apply skipn_line_indent).
  assert (Hws : Forall (fun a => isspace a = true)
                       (firstn (col - r) (block_text c))).
  { destruct (lstrip_split (block_text c)) as [_ Hall]. rewrite Hind in Hall.
    replace (firstn (col - r) (block_text c))
      with (firstn (col - r) (firstn col (block_text c)))
      by (rewrite firstn_firstn; f_equal; lia).
    now apply Forall_prefix. }
  assert (Hstrip : lstrip (firstn (col - r) (block_text c)
                           ++ skipn col (block_text c))
                   = lstrip (block_text c)).
  { rewrite lstrip_spaces_app by assumption.
    rewrite Hskip. apply lstrip_idempotent. }
  repeat split.
  - now apply indent_step_stop.
  - unfold line_indent. rewrite Hstrip, length_app, length_firstn, Hskip. lia.
  - exact Hstrip.
  - lia.
  - rewrite length_app, length_firstn, length_skipn. lia.
  - now rewrite Nat.eqb_refl.
Qed.

Lemma smart_backspace_lands_on_indent_stop_witness :
  exists c',
    __smart_backspace (lit "    ")
      {| block_text := lit "      x"; block_position := 10;
         position := 16; anchor := 16 |} = Some (true, c')
    /\ positionInBlock c' mod 4 = 0
    /\ line_indent (block_text c') = positionInBlock c'.
Proof.
  eexists. split; [reflexivity|].
  destruct (smart_backspace_lands_on_indent_stop (lit "    ")
              {| block_text := lit "      x"; block_position := 10;
                 position := 16; anchor := 16 |}
              {| block_text := lit "    x"; block_position := 10;
                 position := 14; anchor := 14 |})
    as (H1 & H2 & _).
  - unfold in_block; simpl; lia.
  - reflexivity.
  - split; [exact H1|exact H2].
Defined.

(** The column after Home, as the method computes it. *)
Lemma manage_key_home_column (shift : bool) (c : QTextCursor) :
  in_block c ->
  positionInBlock (__manage_key_home shift c) =
  home_column (positionInBlock c) (line_indent (block_text c)).
Proof.
  intros [Hlo Hhi].
  unfold __manage_key_home, home_column, atBlockStart.
  set (indent := line_indent (block_text c)).
  destruct (Nat.eqb_spec (positionInBlock c) indent) as [He|Hne].
  - unfold moveStartOfBlock, setPosition, positionInBlock; simpl. lia.
  - destruct (Nat.eqb_spec (position c) (block_position c)) as [H0|H0];
      destruct (Nat.eqb_spec (positionInBlock c) 0) as [H1|H1];
      unfold positionInBlock in *; try lia.
    + unfold setPosition; simpl. lia.
    + destruct (Nat.ltb_spec indent (position c - block_position c)).
      * unfold moveStartOfBlock, setPosition; simpl. lia.
      * reflexivity.
Qed.

Lemma manage_key_home_in_block (shift : bool) (c : QTextCursor) :
  in_block c ->
  in_block (__manage_key_home shift c)
  /\ block_text (__manage_key_home shift c) = block_text c
  /\ block_position (__manage_key_home shift c) = block_position c.
Proof.
  intros [Hlo Hhi]. pose proof (line_indent_le (block_text c)).
  unfold __manage_key_home, in_block, moveStartOfBlock, setPosition.
  destruct (positionInBlock c =? line_indent (block_text c));
    [|destruct (atBlockStart c);
      [|destruct (line_indent (block_text c) <? positionInBlock c)]];
    cbn [block_text block_position position]; repeat split; lia.
Qed.

(** X15.  Home toggles between column 0 and the first non-whitespace
    column: from either of them two presses bring the cursor back, and from
    a column to the right of the indent the first press goes to the indent
    and the second to column 0.  The text is not touched, the cursor stays
    in its block, and with shift held the anchor stays where it was. *)
Theorem home_key_toggles (shift : bool) (c : QTextCursor) :
  in_block c ->
  let indent := line_indent (block_text c) in
  let once := __manage_key_home shift c in
  let twice := __manage_key_home shift once in
  (positionInBlock c = 0 \/ positionInBlock c = indent ->
   positionInBlock twice = positionInBlock c)
  /\ (indent < positionInBlock c ->
      positionInBlock once = indent /\ positionInBlock twice = 0)
  /\ block_text twice = block_text c
  /\ in_block twice
  /\ (shift = true -> anchor twice = anchor c).
Proof.
  intros Hin indent once twice.
  destruct (manage_key_home_in_block shift c Hin) as (Hin1 & Htext1 & Hpos1).
  fold once in Hin1, Htext1, Hpos1.
  destruct (manage_key_home_in_block shift once Hin1) as (Hin2 & Htext2 & _).
  fold twice in Hin2, Htext2.
  pose proof (manage_key_home_column shift c Hin) as H1.
  pose proof (manage_key_home_column shift once Hin1) as H2.
  fold once in H1. fold twice in H2. rewrite Htext1 in H2. fold indent in H1, H2.
  rewrite H1 in H2. unfold home_column in *.
  repeat split.
  - intros [H0|Hi]; rewrite H2.
    + rewrite H0.
      destruct (Nat.eqb_spec 0 indent) as [<-|Hne]; [reflexivity|].
      cbn [Nat.eqb]. now rewrite Nat.eqb_refl.
    + rewrite Hi, Nat.eqb_refl.
      destruct (Nat.eqb_spec 0 indent) as [<-|Hne]; [reflexivity|].
      reflexivity.
  - rewrite H1.
    destruct (Nat.eqb_spec (positionInBlock c) indent); [lia|].
    destruct (Nat.eqb_spec (positionInBlock c) 0); [lia|].
    destruct (Nat.ltb_spec indent (positionInBlock c)); [reflexivity|lia].
  - rewrite H2.
    destruct (Nat.eqb_spec (positionInBlock c) indent); [lia|].
    destruct (Nat.eqb_spec (positionInBlock c) 0); [lia|].
    destruct (Nat.ltb_spec indent (positionInBlock c)); [|lia].
    now rewrite Nat.eqb_refl.
  - now rewrite Htext2.
  - apply Hin2.
  - apply Hin2.
  - intros ->. subst twice once. unfold __manage_key_home.
    repeat match goal with
           | |- context [if ?b then _ else _] => destruct b
           end; reflexivity.
Qed.

Lemma home_key_toggles_witness :
  let c := {| block_text := lit "    x = 1"; block_position := 20;
              position := 24; anchor := 24 |} in
  positionInBlock (__manage_key_home false (__manage_key_home false c)) = 4.
Proof.
  intros c.
  destruct (home_key_toggles false c) as (H & _).
  - unfold in_block; simpl; lia.
  - apply H. right. reflexivity.
Defined.

(** ** Comment / uncomment, again *)

(** The edit made when the operation is to comment. *)
Lemma comment_mode_result (card : str) (blocks : list str) :
  Forall (fun t => (Z.of_nat (length t) <= sys_maxsize)%Z) blocks ->
  operation card blocks = true ->
  comment_or_uncomment card blocks
  = Some (map (insert_marker card (shared_indent blocks)) blocks).
Proof.
  intros Hfit Hop. unfold comment_or_uncomment. rewrite Hop.
  destruct (forallb is_blank blocks) eqn:Hall.
  - rewrite edit_blocks_blank by assumption. f_equal.
    transitivity (map (fun t : str => t) blocks); [symmetry; apply map_id|].
    apply map_ext_in. intros t Ht. rewrite forallb_forall in Hall.
    unfold insert_marker. now rewrite (Hall t Ht).
  - destruct (shared_indent_opt_some blocks Hall) as [m Hm].
    assert (Hshared : shared_indent blocks = m)
      by (unfold shared_indent; now rewrite Hm).
    rewrite Hshared.
    assert (Hle : forall t, In t blocks -> is_blank t = false ->
                            m <= line_indent t)
      by (intros t Ht Hb; now apply (shared_indent_opt_le blocks t m)).
    assert (Hbound : Z.min (Z.of_nat m) sys_maxsize = Z.of_nat m).
    { destruct (forallb_false_exists _ _ _ Hall) as (t & Ht & Hb).
      specialize (Hle t Ht Hb). pose proof (line_indent_le t).
      rewrite Forall_forall in Hfit. specialize (Hfit t Ht). lia. }
    rewrite scan_blocks_from, scan_min_indent, Hm.
    cbn [scan_init min_indent]. rewrite Hbound.
    apply edit_blocks_map. intros t Ht.
    unfold edit_block, insert_marker.
    destruct (is_blank t) eqn:Hb; [reflexivity|].
    rewrite Nat2Z.id.
    specialize (Hle t Ht Hb). pose proof (line_indent_le t).
    destruct (Nat.ltb_spec (length t) m); [lia|reflexivity].
Qed.

(** X16.  Whenever the operation is to comment, also when some of the
    blocks are commented already, every block that is not blank gets the
    marker at the least indent of those blocks and every blank block is
    left as it is; the edit never fails. *)
Theorem comment_marks_every_block (card : str) (blocks : list str) :
  Forall (fun t => (Z.of_nat (length t) <= sys_maxsize)%Z) blocks ->
  operation card blocks = true ->
  exists result,
    comment_or_uncomment card blocks = Some result
    /\ length result = length blocks
    /\ forall i t, nth_error blocks i = Some t ->
         nth_error result i =
         Some (if is_blank t then t
               else firstn (shared_indent blocks) t ++ card
                    ++ skipn (shared_indent blocks) t).
Proof.
  intros Hfit Hop. eexists. split; [now apply comment_mode_result|].
  split; [apply length_map|].
  intros i t Hi. rewrite nth_error_map, Hi. reflexivity.
Qed.

Lemma comment_marks_every_block_witness :
  comment_or_uncomment (lit "#") [lit "#a"; lit ""; lit "  b"]
  = Some [lit "##a"; lit ""; lit "#  b"].
Proof.
  destruct (comment_marks_every_block (lit "#") [lit "#a"; lit ""; lit "  b"])
    as (result & Hrun & Hlen & Hnth).
  - repeat constructor; vm_compute; discriminate.
  - reflexivity.
  - rewrite Hrun. f_equal.
    pose proof (Hnth 0 _ eq_refl) as H0.
    pose proof (Hnth 1 _ eq_refl) as H1.
    pose proof (Hnth 2 _ eq_refl) as H2.
    destruct result as [|r0 [|r1 [|r2 [|r3 result]]]]; try discriminate Hlen.
    cbn in H0, H1, H2. inversion H0; inversion H1; inversion H2. reflexivity.
Defined.

(** X17.  A toggle that comments, from blocks none or only some of which
    are commented, leaves every block that is not blank commented at one
    and the same column, so that the next toggle uncomments, and that next
    toggle gives back the text as it was. *)
Theorem toggle_twice_restores_commenting_states
    (card : str) (blocks : list str) :
  card <> [] ->
  lstrip card = card ->
  Forall (fun t => (Z.of_nat (length t) <= sys_maxsize)%Z) blocks ->
  operation card blocks = true ->
  let commented := map (insert_marker card (shared_indent blocks)) blocks in
  comment_or_uncomment card blocks = Some commented
  /\ Forall (fun t => is_blank t = false ->
               startswith (lstrip t) card = true
               /\ line_indent t = shared_indent blocks) commented
  /\ (forallb is_blank blocks = false -> operation card commented = false)
  /\ comment_or_uncomment card commented = Some blocks.
Proof.
  intros Hne Hhead Hfit Hop commented.
  split; [now apply comment_mode_result|].
  destruct (forallb is_blank blocks) eqn:Hall.
  - (* nothing but blank blocks: nothing is edited *)
    assert (Hid : commented = blocks).
    { subst commented. transitivity (map (fun t : str => t) blocks);
        [|apply map_id].
      apply map_ext_in. intros t Ht. rewrite forallb_forall in Hall.
      unfold insert_marker. now rewrite (Hall t Ht). }
    rewrite Hid. split; [|split].
    + apply Forall_forall. intros t Ht Hb. rewrite forallb_forall in Hall.
      rewrite (Hall t Ht) in Hb. discriminate.
    + discriminate.
    + unfold comment_or_uncomment. now apply edit_blocks_blank.
  - destruct (shared_indent_opt_some blocks Hall) as [m Hm].
    assert (Hshared : shared_indent blocks = m)
      by (unfold shared_indent; now rewrite Hm).
    subst commented. rewrite Hshared.
    assert (Hle : forall t, In t blocks -> is_blank t = false ->
                            m <= line_indent t)
      by (intros t Ht Hb; now apply (shared_indent_opt_le blocks t m)).
    assert (Hbound : Z.min (Z.of_nat m) sys_maxsize = Z.of_nat m).
    { destruct (forallb_false_exists _ _ _ Hall) as (t & Ht & Hb).
      specialize (Hle t Ht Hb). pose proof (line_indent_le t).
      rewrite Forall_forall in Hfit. specialize (Hfit t Ht). lia. }
    set (f := insert_marker card m).
    assert (Hblank : forall t, In t blocks -> is_blank (f t) = is_blank t).
    { intros t Ht. unfold f, insert_marker.
      destruct (is_blank t) eqn:Hb; [exact Hb|].
      apply is_blank_inserted; auto. }
    assert (Hall' : forallb is_blank (map f blocks) = false).
    { destruct (forallb_false_exists _ _ _ Hall) as (t & Ht & Hb).
      destruct (forallb is_blank (map f blocks)) eqn:E; [|reflexivity].
      rewrite forallb_forall in E.
      specialize (E (f t) (in_map f _ _ Ht)).
      rewrite Hblank in E by assumption. congruence. }
    assert (Huniform : Forall (fun t' => is_blank t' = false ->
                                 startswith (lstrip t') card = true
                                 /\ line_indent t' = m) (map f blocks)).
    { apply Forall_forall. intros t' Ht' Hb'.
      apply in_map_iff in Ht' as (t & <- & Ht).
      rewrite Hblank in Hb' by assumption.
      unfold f, insert_marker. rewrite Hb'. split.
      - apply startswith_inserted; auto.
      - apply line_indent_inserted; auto. }
    assert (Hm' : shared_indent_opt (map f blocks) = Some m).
    { rewrite (shared_indent_opt_const (map f blocks) m), Hall'; [reflexivity|].
      intros t' Ht' Hb'. rewrite Forall_forall in Huniform.
      now apply (Huniform t' Ht'). }
    assert (Hexact : Forall (fun t' => is_blank t' = false ->
                               startswith (lstrip t') card = true)
                            (map f blocks)).
    { eapply Forall_impl; [|exact Huniform]. cbn. intros t' H Hb'.
      now apply H. }
    assert (Hop' : operation card (map f blocks) = false).
    { apply operation_all_commented.
      - destruct (forallb_false_exists _ _ _ Hall') as (t' & Ht' & Hb').
        apply Exists_exists. eauto.
      - apply Forall_forall. intros t' Ht' Hb'.
        rewrite Forall_forall in Hexact. unfold is_commented.
        now rewrite (Hexact t' Ht' Hb'). }
    split; [exact Huniform|]. split; [intros _; exact Hop'|].
    unfold comment_or_uncomment. rewrite Hop'.
    rewrite scan_blocks_from, scan_min_indent, Hm'.
    rewrite scan_card_lenght_exact by assumption.
    cbn [scan_init min_indent card_lenght]. rewrite Hbound.
    apply edit_blocks_unmap. intros t Ht.
    unfold edit_block. rewrite Hblank by assumption.
    unfold f, insert_marker.
    destruct (is_blank t) eqn:Hb; [reflexivity|].
    rewrite !Nat2Z.id, length_inserted.
    specialize (Hle t Ht Hb). pose proof (line_indent_le t).
    destruct (Nat.ltb_spec (length t + length card) m); [lia|].
    destruct (Nat.ltb_spec (length t + length card) (m + length card));
      [lia|].
    f_equal. now apply remove_inserted.
Qed.

Lemma toggle_twice_restores_commenting_states_witness :
  let blocks := [lit "    x = 1"; lit "    # y = 2"; lit ""; lit "  z = 3"] in
  comment_or_uncomment (lit "#") blocks
    = Some [lit "  #  x = 1"; lit "  #  # y = 2"; lit ""; lit "  #z = 3"]
  /\ comment_or_uncomment (lit "#")
       [lit "  #  x = 1"; lit "  #  # y = 2"; lit ""; lit "  #z = 3"]
     = Some blocks.
Proof.
  intros blocks.
  destruct (toggle_twice_restores_commenting_states (lit "#") blocks)
    as (H1 & _ & _ & H4).
  - discriminate.
  - reflexivity.
  - repeat constructor; vm_compute; discriminate.
  - reflexivity.
  - split; [exact H1|exact H4].
Defined.




(** ** The categories of a manager *)

Lemma setitem_order (d : odict) (k : kind) (l : loc) :
  (In k (map fst d) -> map fst (setitem d k l) = map fst d)
  /\ (~ In k (map fst d) -> map fst (setitem d k l) = map fst d ++ [k]).
Proof.
  induction d as [|[k' l'] d [IH1 IH2]]; cbn [setitem map fst app].
  - split; [intros []|reflexivity].
  - destruct (String.eqb_spec k' k) as [->|Hne]; cbn [map fst].
    + split; [reflexivity|]. intros H. exfalso. apply H. now left.
    + split; intros H.
      * f_equal. apply IH1. destruct H as [H|H]; [contradiction|exact H].
      * f_equal. apply IH2. intros Hin. apply H. now right.
Qed.

(** X19.  [add] under a category that is there keeps the categories and
    their order, under a new one it puts the category last; [remove] never
    takes a category away, so that after it [manager[k]] is the empty list
    and not a [KeyError]. *)
Theorem categories_are_kept
    (h : store) (m : ExtraSelectionManager) (k : kind) (a : selection_arg) :
  (In k (__iter__ m) -> __iter__ (snd (add h m k a)) = __iter__ m)
  /\ (~ In k (__iter__ m) -> __iter__ (snd (add h m k a)) = __iter__ m ++ [k])
  /\ __iter__ (snd (remove h m k)) = __iter__ m
  /\ __len__ (snd (remove h m k)) = __len__ m
  /\ (In k (__iter__ m) ->
      __getitem__ (fst (remove h m k)) (snd (remove h m k)) k = Some []).
Proof.
  unfold __iter__, __len__, __getitem__.
  assert (Hadd : selections (snd (add h m k a))
                 = setitem (selections m) k
                     (match a with AList l => l | ASingle _ => length h end)).
  { unfold add. now destruct a. }
  rewrite Hadd, remove_selections.
  destruct (setitem_order (selections m) k
              (match a with AList l => l | ASingle _ => length h end))
    as [H1 H2].
  repeat split; auto.
  intros Hin. unfold remove.
  destruct (lookup (selections m) k) as [l|] eqn:E.
  - cbn [fst]. f_equal. apply deref_clear.
  - apply lookup_None in E. contradiction.
Qed.

Lemma categories_are_kept_witness :
  let s0 := {| start_pos := 10; end_pos := 12; order := 1 |} in
  let m := {| selections := [("find"%string, 0); ("checker"%string, 1)];
              rendered := [] |} in
  __iter__ (snd (add [[]; [s0]] m "find"%string (ASingle s0)))
    = ["find"%string; "checker"%string]
  /\ __iter__ (snd (add [[]; [s0]] m "link"%string (ASingle s0)))
    = ["find"%string; "checker"%string; "link"%string]
  /\ __getitem__ (fst (remove [[]; [s0]] m "checker"%string))
       (snd (remove [[]; [s0]] m "checker"%string)) "checker"%string
     = Some [].
Proof.
  intros s0 m.
  destruct (categories_are_kept [[]; [s0]] m "find"%string (ASingle s0))
    as (H1 & _).
  destruct (categories_are_kept [[]; [s0]] m "link"%string (ASingle s0))
    as (_ & H2 & _).
  destruct (categories_are_kept [[]; [s0]] m "checker"%string (ASingle s0))
    as (_ & _ & _ & _ & H3).
  split; [|split].
  - apply H1. cbn. auto.
  - apply H2. cbn. intuition discriminate.
  - apply H3. cbn. auto.
Defined.
